(** * A private blockchain (star registry): the [Blockchain] class of
    [src/blockchain.js], embedded as state-passing functions over the pair
    (chain array, cached height), with the blocks of [block.js], the digest
    and the signature check of the two libraries taken as parameters. *)

From Stdlib Require Import ZArith List String Ascii Bool Lia.
From Stdlib Require Import DecimalString DecimalPos.
Import ListNotations.

Local Open Scope string_scope.
Local Open Scope Z_scope.

(** ** The JavaScript primitives the class relies on *)

Module JS.

(** Numbers.  Every number the class computes is either an integer (a
    parsed field, a clock reading, a difference of two such) or NaN.
    Integers are kept exact; doubles agree with that below 2^53, and the
    only test made on them, [> 300], has the same outcome after rounding
    for every larger magnitude, the clock being far below 2^53. *)
Inductive Number : Type :=
| NaN
| Num (z : Z).

(** [a - b] *)
Definition sub (a b : Number) : Number :=
  match a, b with
  | Num x, Num y => Num (x - y)
  | _, _ => NaN
  end.

(** [a > b]: every comparison with NaN is false. *)
Definition gt (a b : Number) : bool :=
  match a, b with
  | Num x, Num y => y <? x
  | _, _ => false
  end.

(** [Number.prototype.toString()] on an integer of magnitude below 10^21,
    where JavaScript prints all the digits. *)
Definition toString (z : Z) : string :=
  NilZero.string_of_int (Z.to_int z).

(** [s.slice(0, -3)]: all but the last three characters, the empty string
    when there are three or fewer. *)
Definition slice_0_m3 (s : string) : string :=
  substring 0 (String.length s - 3) s.

(** [s.split(sep)] for a one-character separator: never the empty array. *)
Fixpoint split (sep : ascii) (s : string) : list string :=
  match s with
  | EmptyString => [EmptyString]
  | String c rest =>
      if Ascii.eqb c sep then EmptyString :: split sep rest
      else match split sep rest with
           | [] => [String c EmptyString]
           | field :: fields => String c field :: fields
           end
  end.

(** [a[i]] on an array: [undefined] ([None]) out of range. *)
Definition index {A : Type} (a : list A) (i : Z) : option A :=
  if i <? 0 then None else nth_error a (Z.to_nat i).

(** [ToString] of a value that is a string or [undefined]. *)
Definition string_of_field (v : option string) : string :=
  match v with
  | Some s => s
  | None => "undefined"
  end.

(** White space among the code units below 256: TAB, LF, VT, FF, CR, the
    space and the no-break space. *)
Definition is_white (c : ascii) : bool :=
  let n := nat_of_ascii c in
  ((9 <=? n) && (n <=? 13))%nat || (n =? 32)%nat || (n =? 160)%nat.

Fixpoint trim_start (s : string) : string :=
  match s with
  | String c rest => if is_white c then trim_start rest else s
  | EmptyString => EmptyString
  end.

(** The value of a character as a digit of the given radix (10 or 16). *)
Definition digit_value (radix : Z) (c : ascii) : option Z :=
  let n := Z.of_nat (nat_of_ascii c) in
  let v :=
    if (48 <=? n) && (n <=? 57) then Some (n - 48)
    else if (97 <=? n) && (n <=? 102) then Some (n - 87)
    else if (65 <=? n) && (n <=? 70) then Some (n - 55)
    else None in
  match v with
  | Some d => if d <? radix then Some d else None
  | None => None
  end.

(** The longest prefix of digits, read left to right; [None] when the
    first character is not a digit. *)
Fixpoint digits (radix : Z) (s : string) (acc : option Z) : option Z :=
  match s with
  | EmptyString => acc
  | String c rest =>
      match digit_value radix c with
      | None => acc
      | Some d =>
          digits radix rest
            (Some (match acc with Some a => a * radix + d | None => d end))
      end
  end.

(** [parseInt(s)] with no radix: leading white space is skipped, a sign
    is read, a [0x] or [0X] prefix selects radix 16, and the number is the
    longest run of digits that follows; NaN when that run is empty. *)
Definition parseInt (s : string) : Number :=
  let s := trim_start s in
  let '(sign, s) :=
    match s with
    | String "-" rest => (-1, rest)
    | String "+" rest => (1, rest)
    | _ => (1, s)
    end in
  let '(radix, s) :=
    match s with
    | String "0" (String "x" rest) => (16, rest)
    | String "0" (String "X" rest) => (16, rest)
    | _ => (10, s)
    end in
  match digits radix s None with
  | Some n => Num (sign * n)
  | None => NaN
  end.

End JS.

(** ** Decimal numerals

    What [toString] prints and [parseInt] reads back, as lists of digits. *)

(** The digits of a decimal numeral, most significant first. *)
Fixpoint uint_digits (d : Decimal.uint) : list Z :=
  match d with
  | Decimal.Nil => []
  | Decimal.D0 d => 0 :: uint_digits d
  | Decimal.D1 d => 1 :: uint_digits d
  | Decimal.D2 d => 2 :: uint_digits d
  | Decimal.D3 d => 3 :: uint_digits d
  | Decimal.D4 d => 4 :: uint_digits d
  | Decimal.D5 d => 5 :: uint_digits d
  | Decimal.D6 d => 6 :: uint_digits d
  | Decimal.D7 d => 7 :: uint_digits d
  | Decimal.D8 d => 8 :: uint_digits d
  | Decimal.D9 d => 9 :: uint_digits d
  end.

(** The number a list of digits writes, continued from [acc]. *)
Fixpoint horner (ds : list Z) (acc : Z) : Z :=
  match ds with
  | [] => acc
  | k :: rest => horner rest (10 * acc + k)
  end.

(** The string a list of digits writes. *)
Fixpoint show_digits (ds : list Z) : string :=
  match ds with
  | [] => EmptyString
  | k :: rest => String (ascii_of_nat (48 + Z.to_nat k)) (show_digits rest)
  end.

Definition is_digit (k : Z) : Prop := 0 <= k <= 9.

(** Whether a string has the separator of the challenge in it. *)
Fixpoint has_colon (s : string) : bool :=
  match s with
  | EmptyString => false
  | String c rest => Ascii.eqb c ":" || has_colon rest
  end.


(** ** Blocks *)

(** Modelled from the spec: the [Block] class of [block.js], which is not
    among the sources.  A block carries its height, its creation time, the
    serialized payload, the digest of the previous block and its own digest;
    the two digests are absent ([null]) until they are assigned.  The time is
    kept as the string that [_addBlock] stores. *)
Record Block : Type := mkBlock {
  hash : option string;
  height : Z;
  body : string;
  time : string;
  previousBlockHash : option string
}.

Definition set_hash (v : option string) (b : Block) : Block :=
  mkBlock v (height b) (body b) (time b) (previousBlockHash b).
Definition set_height (v : Z) (b : Block) : Block :=
  mkBlock (hash b) v (body b) (time b) (previousBlockHash b).
Definition set_time (v : string) (b : Block) : Block :=
  mkBlock (hash b) (height b) (body b) v (previousBlockHash b).
Definition set_previousBlockHash (v : option string) (b : Block) : Block :=
  mkBlock (hash b) (height b) (body b) (time b) v.

(** [===] on values that are a string or [null]. *)
Definition same_hash (a b : option string) : bool :=
  match a, b with
  | Some x, Some y => String.eqb x y
  | None, None => true
  | _, _ => false
  end.

(** What a template literal prints for such a value. *)
Definition show_hash (h : option string) : string :=
  match h with
  | Some x => x
  | None => "null"
  end.

(** The two shapes of object a block is built from: [{ data: 'Genesis
    Block' }] and [{ owner: address, data: star }]. *)
Inductive Payload (Star : Type) : Type :=
| GenesisData (data : string)
| StarData (owner : string) (data : Star).
Arguments GenesisData {Star} data.
Arguments StarData {Star} owner data.

(** [payload.owner], [undefined] on the genesis object. *)
Definition owner_of {Star : Type} (p : Payload Star) : option string :=
  match p with
  | GenesisData _ => None
  | StarData o _ => Some o
  end.

(** What [bitcoinMessage.verify] can do: answer, or throw on an address or
    a signature it cannot read. *)
Inductive VerifyOutcome : Type :=
| Verified
| NotVerified
| VerifyThrew (msg : string).

(** What the class takes from outside: the values callers register, the
    digest of crypto-js (composed with [toString]), [JSON.stringify] on a
    block, the signature check of bitcoinjs-message and the payload codec of
    [block.js]. *)
Class Externals : Type := {
  Star : Type;
  SHA256 : string -> string;
  JSON_stringify : Block -> string;
  verify : string -> string -> string -> VerifyOutcome;
  encode : Payload Star -> string;
  decode : string -> option (Payload Star)
}.

(** ** Errors and the state of a [Blockchain] object *)

Inductive Error : Type :=
| MessageTimedOut
| CouldntVerify
| ChainInvalid
| BlockInvalid (h : option string)
| InvalidPreviousHash (h : option string)
| TypeError
| LibraryError (msg : string)
| DecodeError.

(** The text of each error object. *)
Definition message_of (e : Error) : string :=
  match e with
  | MessageTimedOut => "Message timed out"
  | CouldntVerify => "Couldn't verify message"
  | ChainInvalid => "The chain is invalid"
  | BlockInvalid h => "The block with hash " ++ show_hash h ++ " is invalid"
  | InvalidPreviousHash h =>
      "The block with hash " ++ show_hash h
        ++ " has an invalid previous block hash"
  | TypeError => "Cannot read properties of undefined"
  | LibraryError msg => msg
  | DecodeError => "The block data cannot be decoded"
  end%string.

(** The two fields of the object: [this.chain] and [this.height], the
    latter under the name [chain_height] to tell it from the height of a
    block. *)
Record Blockchain : Type := mkBlockchain {
  chain : list Block;
  chain_height : Z
}.

Inductive Result (A : Type) : Type :=
| Return (a : A)
| Throw (e : Error).
Arguments Return {A} a.
Arguments Throw {A} e.

(** A method body: it reads and writes the object and either returns or
    throws; what was written before a throw stays written. *)
Definition M (A : Type) : Type := Blockchain -> Result A * Blockchain.

Definition ret {A : Type} (a : A) : M A := fun s => (Return a, s).
Definition throw {A : Type} (e : Error) : M A := fun s => (Throw e, s).
Definition bind {A B : Type} (m : M A) (k : A -> M B) : M B :=
  fun s =>
    match m s with
    | (Return a, s') => k a s'
    | (Throw e, s') => (Throw e, s')
    end.
Definition this_height : M Z := fun s => (Return (chain_height s), s).
Definition this_chain : M (list Block) := fun s => (Return (chain s), s).
Definition set_this_height (h : Z) : M unit :=
  fun s => (Return tt, mkBlockchain (chain s) h).
Definition chain_push (b : Block) : M unit :=
  fun s => (Return tt, mkBlockchain (chain s ++ [b]) (chain_height s)).

Declare Scope method_scope.
Delimit Scope method_scope with method.
Notation "x <- m ;; k" := (bind m (fun x => k))
  (at level 61, m at next level, right associativity) : method_scope.
Notation "m ;; k" := (bind m (fun _ => k))
  (at level 61, right associativity) : method_scope.
Local Open Scope method_scope.

(** [this.chain[i]] followed by a property access: a TypeError when the
    slot is empty. *)
Definition chain_at (i : Z) : M Block :=
  c <- this_chain ;;
  match JS.index c i with
  | Some b => ret b
  | None => throw TypeError
  end.

(** [for (let i = lo; i <= hi; i++)] with a body that threads the local
    variables [acc]. *)
Fixpoint for_each {A : Type} (idx : list Z) (body : Z -> A -> M A) (acc : A)
  : M A :=
  match idx with
  | [] => ret acc
  | i :: rest => acc' <- body i acc ;; for_each rest body acc'
  end.

Fixpoint count_from (lo : Z) (n : nat) : list Z :=
  match n with
  | O => []
  | S n' => lo :: count_from (lo + 1) n'
  end.

(** The values [i] takes: [lo], [lo + 1], ... up to [hi]; none when
    [hi < lo]. *)
Definition range (lo hi : Z) : list Z :=
  count_from lo (Z.to_nat (hi - lo + 1)).

(** The clock as the class reads it:
    [new Date().getTime().toString().slice(0, -3)]. *)
Definition seconds_string (now : Z) : string :=
  JS.slice_0_m3 (JS.toString now).

(** ** The methods *)

Section Methods.

Context {E : Externals}.

(** Modelled from the spec: the constructor of [Block] ([block.js] is not
    among the sources).  The payload is stored serialized; height, time
    and the two digests are filled in when the block is appended. *)
Definition new_Block (data : Payload Star) : Block :=
  mkBlock None 0 (encode data) "0" None.

(** The digest of a block's serialized fields, the slot of the digest
    itself being empty: what [_addBlock] computes on line 86, where the
    block still has the empty [hash] it was built with. *)
Definition digest (b : Block) : string :=
  SHA256 (JSON_stringify (set_hash None b)).

(** Modelled from the spec: [Block.validate] ([verifySelf]), missing with
    [block.js]: recompute the digest from the stored fields other than
    [hash] and compare it with the stored [hash]. *)
Definition validate (b : Block) : bool :=
  same_hash (hash b) (Some (digest b)).

(** Modelled from the spec: [Block.getBData] ([decodePayload]), missing
    with [block.js]: the decoded payload, or a failure when the stored
    body is malformed. *)
Definition getBData (b : Block) : M (Payload Star) :=
  match decode (body b) with
  | Some p => ret p
  | None => throw DecodeError
  end.

(** Lines 197-209 once [this.chain[i].validate()] has answered [valid]:
    the two tests and their pushes. *)
Definition after_validate (i : Z) (valid : bool) (errorLog : list Error)
  : M (list Error) :=
  block <- chain_at i ;;
  let errorLog :=
    if negb valid
    then (errorLog ++ [BlockInvalid (hash block)])%list
    else errorLog in
  previous <- chain_at (i - 1) ;;
  let errorLog :=
    if negb (same_hash (previousBlockHash block) (hash previous))
    then (errorLog ++ [InvalidPreviousHash (hash block)])%list
    else errorLog in
  ret errorLog.

(** One turn of the loop of [validateChain] (lines 197-209). *)
Definition validateBlockAt (i : Z) (errorLog : list Error)
  : M (list Error) :=
  block <- chain_at i ;;
  after_validate i (validate block) errorLog.

(** [validateChain()] (lines 193-213). *)
Definition validateChain : M (list Error) :=
  h <- this_height ;;
  for_each (range 1 h) validateBlockAt [].

(** Lines 72-89 of [_addBlock]: what runs once the chain was found valid.
    The object [block] is updated in place by the source; the updated
    block is returned here so that the caller keeps track of it. *)
Definition seal_and_push (now : Z) (block : Block) : M Block :=
  h <- this_height ;;
  set_this_height (h + 1) ;;
  h <- this_height ;;
  let block := set_height h block in
  let block := set_time (seconds_string now) block in
  block <-
    (if 0 <? h
     then previous <- chain_at (h - 1) ;;
          ret (set_previousBlockHash (hash previous) block)
     else ret block) ;;
  let block := set_hash (Some (SHA256 (JSON_stringify block))) block in
  chain_push block ;;
  ret block.

(** [_addBlock(block)] (lines 63-90); [now] is the clock at line 78. *)
Definition _addBlock (now : Z) (block : Block) : M Block :=
  chainErrors <- validateChain ;;
  if (0 <? List.length chainErrors)%nat then throw ChainInvalid
  else seal_and_push now block.

(** [initializeChain()] (lines 35-40). *)
Definition initializeChain (now : Z) : M unit :=
  h <- this_height ;;
  if h =? -1
  then _addBlock now (new_Block (GenesisData "Genesis Block")) ;; ret tt
  else ret tt.

(** The constructor (lines 24-28), followed to the end of the
    initialization it starts. *)
Definition new_Blockchain (now : Z) : Result unit * Blockchain :=
  initializeChain now (mkBlockchain [] (-1)).

(** [getChainHeight()] (lines 45-49). *)
Definition getChainHeight : M Z := this_height.

(** [requestMessageOwnershipVerification(address)] (lines 100-105). *)
Definition requestMessageOwnershipVerification (address : string) (now : Z)
  : string :=
  (address ++ ":" ++ seconds_string now ++ ":starRegistry")%string.

(** [parseInt(message.split(':')[1])] (line 126). *)
Definition messageTime (message : string) : JS.Number :=
  JS.parseInt (JS.string_of_field (JS.index (JS.split ":" message) 1)).

(** [parseInt(new Date().getTime().toString().slice(0, -3))] (line 128). *)
Definition currentTime (now : Z) : JS.Number :=
  JS.parseInt (seconds_string now).

(** [currentTime - messageTime] *)
Definition elapsed (message : string) (now : Z) : JS.Number :=
  JS.sub (currentTime now) (messageTime message).

(** [submitStar(address, message, signature, star)] (lines 124-146);
    [now] is the clock at line 128 and [now'] the clock when the block is
    appended. *)
Definition submitStar (address message signature : string) (star : Star)
    (now now' : Z) : M Block :=
  if JS.gt (elapsed message now) (JS.Num 300) then throw MessageTimedOut
  else
    match verify message address signature with
    | VerifyThrew msg => throw (LibraryError msg)
    | NotVerified => throw CouldntVerify
    | Verified =>
        block <- _addBlock now' (new_Block (StarData address star)) ;;
        ret block
    end.

(** [getBlockByHash(hash)] (lines 154-156). *)
Definition getBlockByHash (h : option string) : M (option Block) :=
  c <- this_chain ;;
  ret (find (fun block => same_hash (hash block) h) c).

(** [getBlockByHeight(height)] (lines 163-165). *)
Definition getBlockByHeight (h : Z) : M (option Block) :=
  c <- this_chain ;;
  ret (find (fun block => height block =? h) c).

(** One turn of the loop of [getStarsByWalletAddress] (lines 177-181). *)
Definition collectStarAt (address : string) (i : Z)
    (stars : list (Payload Star)) : M (list (Payload Star)) :=
  block <- chain_at i ;;
  blockData <- getBData block ;;
  if same_hash (owner_of blockData) (Some address)
  then ret (stars ++ [blockData])%list
  else ret stars.

(** [getStarsByWalletAddress(address)] (lines 173-185). *)
Definition getStarsByWalletAddress (address : string)
  : M (list (Payload Star)) :=
  h <- this_height ;;
  for_each (range 1 h) (collectStarAt address) [].

End Methods.

(** ** Calls in flight together

    Every method is an [async] function: it runs until its next [await] and
    then gives way to whatever else is queued.  A call of [submitStar] stops
    at each [await this.chain[i].validate()] of [validateChain] and at
    [await this.validateChain()] of [_addBlock]; between two stops it runs
    alone.  The calls in flight are kept as tasks, each at one of its stops,
    and a step resumes one of them up to its next stop. *)

Section Interleaving.

Context {E : Externals}.

(** The arguments of one call, with the clock at line 128 and the clock
    at line 78. *)
Record Submission : Type := mkSubmission {
  sub_address : string;
  sub_message : string;
  sub_signature : string;
  sub_star : Star;
  sub_now : Z;
  sub_now' : Z
}.

Inductive Task : Type :=
| Fresh (call : Submission)
    (* not yet invoked *)
| Validating (i : Z) (valid : bool) (errorLog : list Error)
    (block : Block) (now' : Z)
    (* stopped at line 197, [valid] being the answer of chain[i] *)
| Validated (errorLog : list Error) (block : Block) (now' : Z)
    (* stopped at line 65, [validateChain] having returned *)
| Finished (r : Result Block).

(** The test [i <= this.height] and, when it holds, the call of
    [this.chain[i].validate()] at which the task stops. *)
Definition loop_test (i : Z) (errorLog : list Error) (block : Block)
    (now' : Z) : M Task :=
  h <- this_height ;;
  if i <=? h
  then b <- chain_at i ;;
       ret (Validating i (validate b) errorLog block now')
  else ret (Validated errorLog block now').

(** Lines 126-141 and the entry into [_addBlock] and [validateChain]. *)
Definition start (call : Submission) : M Task :=
  if JS.gt (elapsed (sub_message call) (sub_now call)) (JS.Num 300)
  then throw MessageTimedOut
  else
    match verify (sub_message call) (sub_address call) (sub_signature call)
    with
    | VerifyThrew msg => throw (LibraryError msg)
    | NotVerified => throw CouldntVerify
    | Verified =>
        loop_test 1 []
          (new_Block (StarData (sub_address call) (sub_star call)))
          (sub_now' call)
    end.

(** A task resumed up to its next stop. *)
Definition resume (t : Task) : M Task :=
  match t with
  | Fresh call => start call
  | Validating i valid errorLog block now' =>
      errorLog <- after_validate i valid errorLog ;;
      loop_test (i + 1) errorLog block now'
  | Validated errorLog block now' =>
      if (0 <? List.length errorLog)%nat then throw ChainInvalid
      else b <- seal_and_push now' block ;; ret (Finished (Return b))
  | Finished r => ret (Finished r)
  end.

Definition is_finished (t : Task) : bool :=
  match t with
  | Finished _ => true
  | _ => false
  end.

(** The object shared by the calls and the calls themselves. *)
Record Config : Type := mkConfig {
  shared : Blockchain;
  tasks : list Task
}.

Fixpoint replace_nth {A : Type} (k : nat) (x : A) (l : list A) {struct l}
  : list A :=
  match l with
  | [] => []
  | y :: rest =>
      match k with
      | O => x :: rest
      | S k' => y :: replace_nth k' x rest
      end
  end.

(** Task [k] resumed; a throw ends it.  No step when [k] names no task or
    a finished one. *)
Definition step (k : nat) (c : Config) : option Config :=
  match nth_error (tasks c) k with
  | Some t =>
      if is_finished t then None
      else
        match resume t (shared c) with
        | (Return t', s') => Some (mkConfig s' (replace_nth k t' (tasks c)))
        | (Throw e, s') =>
            Some (mkConfig s' (replace_nth k (Finished (Throw e)) (tasks c)))
        end
  | None => None
  end.

(** A schedule is the order in which tasks are resumed. *)
Fixpoint run (schedule : list nat) (c : Config) : option Config :=
  match schedule with
  | [] => Some c
  | k :: rest =>
      match step k c with
      | Some c' => run rest c'
      | None => None
      end
  end.

Definition all_finished (c : Config) : bool :=
  forallb is_finished (tasks c).

(** A task resumed again and again with nothing else in between, for at
    most [fuel] segments. *)
Fixpoint alone (fuel : nat) (t : Task) (s : Blockchain)
  : option (Result Block * Blockchain) :=
  match t with
  | Finished r => Some (r, s)
  | _ =>
      match fuel with
      | O => None
      | S fuel' =>
          match resume t s with
          | (Return t', s') => alone fuel' t' s'
          | (Throw e, s') => Some (Throw e, s')
          end
      end
  end.

(** The chain each segment of task [k] started from, in the order the
    schedule ran them. *)
Fixpoint seen_by (k : nat) (schedule : list nat) (c : Config)
  : list (list Block) :=
  match schedule with
  | [] => []
  | j :: rest =>
      match step j c with
      | Some c' =>
          if (j =? k)%nat then chain (shared c) :: seen_by k rest c'
          else seen_by k rest c'
      | None => []
      end
  end.

(** A call validates and appends as one unit when no other call changed
    the chain between its segments. *)
Definition atomic_unit (k : nat) (schedule : list nat) (c : Config) : Prop :=
  forall c1 c2,
    In c1 (seen_by k schedule c) -> In c2 (seen_by k schedule c) -> c1 = c2.

(** A valid submission: fresh enough and with a signature that verifies. *)
Definition valid_submission (call : Submission) : Prop :=
  JS.gt (elapsed (sub_message call) (sub_now call)) (JS.Num 300) = false /\
  verify (sub_message call) (sub_address call) (sub_signature call)
    = Verified.

End Interleaving.

(** ** What the properties are stated with *)

Section Specification.

Context {E : Externals}.

(** The cached height agrees with the array: [height = chain.length - 1]. *)
Definition consistent (s : Blockchain) : Prop :=
  chain_height s = Z.of_nat (List.length (chain s)) - 1.

(** The object a constructor starts from (lines 25-26). *)
Definition empty_chain : Blockchain := mkBlockchain [] (-1).

(** The states a [Blockchain] goes through: it starts empty and changes
    only in [_addBlock], which both [initializeChain] and [submitStar]
    call on a block just built.  The index counts the appends that
    succeeded. *)
Inductive built : nat -> Blockchain -> Prop :=
| built_new : built 0 empty_chain
| built_append n s data now b s' :
    built n s ->
    _addBlock now (new_Block data) s = (Return b, s') ->
    built (S n) s'
| built_reject n s data now e s' :
    built n s ->
    _addBlock now (new_Block data) s = (Throw e, s') ->
    built n s'.

(** The block [_addBlock] makes of [block] on a chain [c] at time [now]:
    its height is the length of [c], its predecessor the last block of
    [c], and its hash the digest of all that. *)
Definition next_block (now : Z) (c : list Block) (block : Block) : Block :=
  let block :=
    set_time (seconds_string now) (set_height (Z.of_nat (List.length c)) block) in
  let block :=
    match c with
    | [] => block
    | _ :: _ => set_previousBlockHash (hash (last c block)) block
    end in
  set_hash (Some (SHA256 (JSON_stringify block))) block.

(** The errors the validator owes for one block, given its predecessor:
    the failed self-check first, the broken link second. *)
Definition errors_of (previous block : Block) : list Error :=
  ((if validate block then [] else [BlockInvalid (hash block)])
   ++ (if same_hash (previousBlockHash block) (hash previous) then []
       else [InvalidPreviousHash (hash block)]))%list.

(** The errors owed at height [i], the block there being compared with the
    one at height [i - 1]. *)
Definition errors_at (c : list Block) (i : nat) : list Error :=
  match nth_error c (i - 1), nth_error c i with
  | Some previous, Some block => errors_of previous block
  | _, _ => []
  end.

(** The full list of defects of a chain, in ascending height order; the
    first block is compared with nothing. *)
Fixpoint expected_errors (c : list Block) : list Error :=
  match c with
  | previous :: rest =>
      match rest with
      | block :: _ => (errors_of previous block ++ expected_errors rest)%list
      | [] => []
      end
  | [] => []
  end.

(** Every payload of a list of blocks decoded, or nothing when one of
    them is malformed. *)
Fixpoint decode_all (blocks : list Block) : option (list (Payload Star)) :=
  match blocks with
  | [] => Some []
  | b :: rest =>
      match decode (body b), decode_all rest with
      | Some p, Some ps => Some (p :: ps)
      | _, _ => None
      end
  end.

Definition owned_by (address : string) (p : Payload Star) : bool :=
  same_hash (owner_of p) (Some address).

(** The stars of [address] among the blocks above the genesis block. *)
Definition expected_stars (address : string) (c : list Block)
  : Result (list (Payload Star)) :=
  match decode_all (tl c) with
  | Some payloads => Return (filter (owned_by address) payloads)
  | None => Throw DecodeError
  end.

(** A chain without defect: every block above the first passes its own
    check and points at its predecessor. *)
Fixpoint linked (c : list Block) : Prop :=
  match c with
  | previous :: rest =>
      match rest with
      | block :: _ =>
          validate block = true /\
          previousBlockHash block = hash previous /\
          linked rest
      | [] => True
      end
  | [] => True
  end.

(** A block whose stored hash is the digest of its other fields. *)
Definition sealed (b : Block) : Prop := hash b = Some (digest b).

(** The stored heights of a list of blocks are [from], [from + 1], ... *)
Fixpoint heights_from (from : Z) (blocks : list Block) : Prop :=
  match blocks with
  | [] => True
  | b :: rest => height b = from /\ heights_from (from + 1) rest
  end.

(** A block as [initializeChain] and [submitStar] hand it to [_addBlock]:
    fresh from its constructor. *)
Definition just_built (block : Block) : Prop :=
  exists data, block = new_Block data.

(** What holds of a task at each of its stops while the chain has no
    defect: it has found no error so far, the block it carries is as its
    constructor left it, and a finished task has returned a block of the
    chain. *)
Definition task_ok (s : Blockchain) (t : Task) : Prop :=
  match t with
  | Fresh call => valid_submission call
  | Validating i valid errorLog block _ =>
      1 <= i <= chain_height s /\ valid = true /\ errorLog = [] /\
      just_built block
  | Validated errorLog block _ => errorLog = [] /\ just_built block
  | Finished r => exists b, r = Return b /\ In b (chain s)
  end.

Definition finished_count (ts : list Task) : nat :=
  List.length (filter is_finished ts).

(** A bound on the steps a task still takes when no height goes above
    [top]. *)
Definition work (top : Z) (t : Task) : Z :=
  match t with
  | Fresh _ => top + 2
  | Validating i _ _ _ _ => top - i + 2
  | Validated _ _ _ => 1
  | Finished _ => 0
  end.

Fixpoint total_work (top : Z) (ts : list Task) : Z :=
  match ts with
  | [] => 0
  | t :: rest => work top t + total_work top rest
  end.

(** What every configuration reached from [calls] fired on [s0] satisfies
    after [steps] steps. *)
Definition in_flight (s0 : Blockchain) (calls : nat) (steps : nat)
    (c : Config) : Prop :=
  let top := chain_height s0 + Z.of_nat calls in
  consistent (shared c) /\
  linked (chain (shared c)) /\
  (exists new,
      chain (shared c) = (chain s0 ++ new)%list /\
      heights_from (chain_height s0 + 1) new /\
      Forall sealed new /\
      List.length new = finished_count (tasks c)) /\
  List.length (tasks c) = calls /\
  Forall (task_ok (shared c)) (tasks c) /\
  total_work top (tasks c) + Z.of_nat steps <= Z.of_nat calls * (top + 2).


(** Whether [submitStar] lets a submission through to [_addBlock]. *)
Definition acceptable (call : Submission) : bool :=
  negb (JS.gt (elapsed (sub_message call) (sub_now call)) (JS.Num 300))
  && match verify (sub_message call) (sub_address call) (sub_signature call)
     with
     | Verified => true
     | _ => false
     end.

(** The errors [submitStar] throws before it reaches [_addBlock]. *)
Definition refusal (e : Error) : Prop :=
  e = MessageTimedOut \/ e = CouldntVerify \/ exists msg, e = LibraryError msg.

Definition has_returned (t : Task) : bool :=
  match t with
  | Finished (Return _) => true
  | _ => false
  end.

(** Where the task of a call can be while the chain has no defect: not yet
    invoked; or, for a submission that is let through, at one of its stops
    as in [task_ok]; or, for one that is not, finished with a refusal. *)
Definition call_state (s : Blockchain) (call : Submission) (t : Task)
  : Prop :=
  t = Fresh call \/
  (acceptable call = true /\ is_finished t = false /\ task_ok s t) \/
  (acceptable call = true /\ exists b, t = Finished (Return b) /\
                                       In b (chain s)) \/
  (acceptable call = false /\ exists e, t = Finished (Throw e) /\ refusal e).

(** What every configuration reached from any [calls] fired on [s0]
    satisfies after [steps] steps. *)
Definition in_flight_any (s0 : Blockchain) (calls : list Submission)
    (steps : nat) (c : Config) : Prop :=
  let top := chain_height s0 + Z.of_nat (List.length calls) in
  consistent (shared c) /\
  linked (chain (shared c)) /\
  (exists new,
      chain (shared c) = (chain s0 ++ new)%list /\
      heights_from (chain_height s0 + 1) new /\
      Forall sealed new /\
      List.length new = List.length (filter has_returned (tasks c))) /\
  Forall2 (call_state (shared c)) calls (tasks c) /\
  total_work top (tasks c) + Z.of_nat steps
  <= Z.of_nat (List.length calls) * (top + 2).

End Specification.

(** ** Initializations in flight

    [initializeChain] is [async] too, and the constructor does not wait for
    it: a call is not yet invoked, or inside [_addBlock] at one of the stops
    of a submission, or over. *)

Section Initialization.

Context {E : Externals}.

Inductive Init : Type :=
| InitFresh (now : Z)
| InitAppending (t : Task)
| InitDone (r : Result unit).

(** Lines 36-38 up to the first stop, then the segments of [_addBlock]. *)
Definition resume_init (j : Init) : M Init :=
  match j with
  | InitFresh now =>
      h <- this_height ;;
      if h =? -1
      then t <- loop_test 1 [] (new_Block (GenesisData "Genesis Block")) now ;;
           ret (InitAppending t)
      else ret (InitDone (Return tt))
  | InitAppending t =>
      t' <- resume t ;;
      match t' with
      | Finished (Return _) => ret (InitDone (Return tt))
      | Finished (Throw e) => ret (InitDone (Throw e))
      | _ => ret (InitAppending t')
      end
  | InitDone r => ret (InitDone r)
  end.

Definition init_over (j : Init) : bool :=
  match j with
  | InitDone _ => true
  | _ => false
  end.

(** Initialization [k] resumed on the shared object; a throw ends it. *)
Definition step_init (k : nat) (c : Blockchain * list Init)
  : option (Blockchain * list Init) :=
  match nth_error (snd c) k with
  | Some j =>
      if init_over j then None
      else
        match resume_init j (fst c) with
        | (Return j', s') => Some (s', replace_nth k j' (snd c))
        | (Throw e, s') => Some (s', replace_nth k (InitDone (Throw e)) (snd c))
        end
  | None => None
  end.

Fixpoint run_init (schedule : list nat) (c : Blockchain * list Init)
  : option (Blockchain * list Init) :=
  match schedule with
  | [] => Some c
  | k :: rest =>
      match step_init k c with
      | Some c' => run_init rest c'
      | None => None
      end
  end.

(** One initialization resumed with nothing else in between. *)
Fixpoint init_alone (fuel : nat) (j : Init) (s : Blockchain)
  : option (Result unit * Blockchain) :=
  match j with
  | InitDone r => Some (r, s)
  | _ =>
      match fuel with
      | O => None
      | S fuel' =>
          match resume_init j s with
          | (Return j', s') => init_alone fuel' j' s'
          | (Throw e, s') => Some (Throw e, s')
          end
      end
  end.

End Initialization.

(** ** A concrete instance to run the methods on

    Stand-ins for the libraries: a digest that wraps its input, a serializer
    that lists the five fields, a signature scheme where the signature of a
    message by an address is the two glued together, and a codec with a
    one-letter tag. *)

Module Demo.

Definition stringify (b : Block) : string :=
  ("{hash:" ++ show_hash (hash b)
   ++ ",height:" ++ JS.toString (height b)
   ++ ",body:" ++ body b
   ++ ",time:" ++ time b
   ++ ",previousBlockHash:" ++ show_hash (previousBlockHash b) ++ "}")%string.

Definition sign (address message : string) : string :=
  (address ++ "/" ++ message)%string.

Definition check (message address signature : string) : VerifyOutcome :=
  if String.eqb signature "" then VerifyThrew "Invalid signature length"
  else if String.eqb signature (sign address message) then Verified
  else NotVerified.

Definition write (p : Payload string) : string :=
  match p with
  | GenesisData d => String "G" d
  | StarData o d => String "S" (o ++ "|" ++ d)
  end%string.

Definition read (s : string) : option (Payload string) :=
  match s with
  | String "G" d => Some (GenesisData d)
  | String "S" rest =>
      match JS.split "|" rest with
      | o :: d :: _ => Some (StarData o d)
      | _ => None
      end
  | _ => None
  end.

Definition externals : Externals :=
  Build_Externals string (fun s => "#" ++ s)%string stringify check
    write read.

(** A clock, in milliseconds, and the chain a constructor leaves at that
    time. *)
Definition t0 : Z := 1700000000000.

Definition genesis_block : Block :=
  next_block (E := externals) t0 []
    (new_Block (E := externals) (GenesisData "Genesis Block")).

Definition genesis_chain : Blockchain :=
  snd (new_Blockchain (E := externals) t0).

(** The challenge issued to an address at [t0]. *)
Definition challenge (address : string) : string :=
  requestMessageOwnershipVerification address t0.

(** A star submitted ten seconds later with a proper signature, and the
    chain it leaves. *)
Definition submit (address : string) (star : string) (s : Blockchain)
  : Result Block * Blockchain :=
  submitStar (E := externals) address (challenge address)
    (sign address (challenge address)) star (t0 + 10000) (t0 + 10000) s.

Definition first_star : Block :=
  next_block (E := externals) (t0 + 10000) (chain genesis_chain)
    (new_Block (E := externals) (StarData "alice" "star one")).

Definition star_chain : Blockchain :=
  snd (submit "alice" "star one" genesis_chain).

(** Three stars of [alice] and two of [bob], interleaved. *)
Definition registry : Blockchain :=
  snd (submit "alice" "a3"
    (snd (submit "bob" "b2"
      (snd (submit "alice" "a2"
        (snd (submit "bob" "b1"
          (snd (submit "alice" "a1" genesis_chain))))))))).

(** [star_chain] with the body of its star block rewritten and its back
    link cut, both without sealing again, under a second star appended
    before the damage. *)
Definition tampered_chain : Blockchain :=
  match chain (snd (submit "bob" "star two" star_chain)) with
  | [g; b1; b2] =>
      mkBlockchain
        [g; set_previousBlockHash (Some "0000") (mkBlock (hash b1)
              (height b1) "Smallory|star one" (time b1)
              (previousBlockHash b1)); b2] 2
  | _ => empty_chain
  end.

(** Two submissions of [alice] in flight together on the genesis chain,
    and the order the microtask queue runs them in: both are invoked,
    then each resumes once. *)
Definition call_one : Submission (E := externals) :=
  mkSubmission (E := externals) "alice" (challenge "alice")
    (sign "alice" (challenge "alice")) "star one" (t0 + 10000) (t0 + 10000).

Definition call_two : Submission (E := externals) :=
  mkSubmission (E := externals) "alice" (challenge "alice")
    (sign "alice" (challenge "alice")) "star two" (t0 + 10000) (t0 + 10000).

Definition two_calls : Config (E := externals) :=
  mkConfig genesis_chain (map Fresh [call_one; call_two]).

Definition fifo : list nat := [0; 1; 0; 1]%nat.

(** Where that order leaves the two calls. *)
Definition after_fifo : Config (E := externals) :=
  match run fifo two_calls with
  | Some c => c
  | None => two_calls
  end.

(** A submission of [alice] signed by [bob], another one that comes too
    late, and an order for them between the two good ones. *)
Definition call_forged : Submission (E := externals) :=
  mkSubmission (E := externals) "alice" (challenge "alice")
    (sign "bob" (challenge "alice")) "star x" (t0 + 10000) (t0 + 10000).

Definition call_late : Submission (E := externals) :=
  mkSubmission (E := externals) "alice" (challenge "alice")
    (sign "alice" (challenge "alice")) "star y" (t0 + 400000) (t0 + 400000).

Definition four_calls : list (Submission (E := externals)) :=
  [call_one; call_forged; call_two; call_late].

Definition mixed_order : list nat := [0; 1; 2; 3; 2; 0]%nat.

Definition after_mixed : Config (E := externals) :=
  match run mixed_order (mkConfig genesis_chain (map Fresh four_calls)) with
  | Some c => c
  | None => two_calls
  end.

End Demo.

(** * Properties *)

(** ** The clock in seconds *)

Lemma uint_digits_are_digits (d : Decimal.uint) :
  Forall is_digit (uint_digits d).
Proof. induction d; constructor; unfold is_digit; auto; lia. Qed.

Lemma string_of_uint_digits (d : Decimal.uint) :
  NilEmpty.string_of_uint d = show_digits (uint_digits d).
Proof. induction d; cbn [NilEmpty.string_of_uint uint_digits show_digits]; [reflexivity | rewrite IHd; reflexivity ..]. Qed.

Lemma digit_cases (k : Z) :
  is_digit k ->
  k = 0 \/ k = 1 \/ k = 2 \/ k = 3 \/ k = 4 \/ k = 5 \/ k = 6 \/ k = 7 \/
  k = 8 \/ k = 9.
Proof. unfold is_digit. lia. Qed.

Lemma digit_value_digit (k : Z) :
  is_digit k -> JS.digit_value 10 (ascii_of_nat (48 + Z.to_nat k)) = Some k.
Proof.
  intros H. destruct (digit_cases k H) as [-> | [-> | [-> | [-> | [-> | [-> | [-> | [-> | [-> | ->]]]]]]]]]; reflexivity.
Qed.

Lemma digits_of_shown (ds : list Z) (acc : Z) :
  Forall is_digit ds ->
  JS.digits 10 (show_digits ds) (Some acc) = Some (horner ds acc).
Proof.
  intros H. revert acc. induction H as [| k rest Hk Hrest IH]; intros acc; [reflexivity |].
  cbn [show_digits JS.digits horner]. rewrite (digit_value_digit k Hk).
  rewrite IH. do 2 f_equal. lia.
Qed.

Lemma horner_split (ds : list Z) (acc : Z) :
  Forall is_digit ds ->
  horner ds acc = acc * 10 ^ Z.of_nat (List.length ds) + horner ds 0 /\
  0 <= horner ds 0 < 10 ^ Z.of_nat (List.length ds).
Proof.
  intros H. revert acc. induction H as [| k rest Hk Hrest IH]; intros acc.
  - cbn. lia.
  - cbn [horner List.length]. rewrite Nat2Z.inj_succ, Z.pow_succ_r by lia.
    destruct (IH (10 * acc + k)) as [E1 B].
    destruct (IH (10 * 0 + k)) as [E2 _].
    rewrite E1, E2. unfold is_digit in Hk. split; nia.
Qed.

Lemma horner_app (l1 l2 : list Z) (acc : Z) :
  horner (l1 ++ l2) acc = horner l2 (horner l1 acc).
Proof. revert acc. induction l1 as [| k rest IH]; intros acc; [reflexivity |]. cbn. apply IH. Qed.

Lemma of_uint_acc_horner (d : Decimal.uint) (acc : positive) :
  Z.pos (Pos.of_uint_acc d acc) = horner (uint_digits d) (Z.pos acc).
Proof.
  revert acc. induction d; intros acc; cbn [Pos.of_uint_acc uint_digits horner]; [reflexivity | rewrite IHd; f_equal; lia ..].
Qed.

Lemma of_uint_horner (d : Decimal.uint) :
  Z.of_N (Pos.of_uint d) = horner (uint_digits d) 0.
Proof.
  induction d; cbn [Pos.of_uint uint_digits horner Z.of_N]; [reflexivity | exact IHd | rewrite of_uint_acc_horner; reflexivity ..].
Qed.

Lemma to_uint_horner (p : positive) :
  horner (uint_digits (Pos.to_uint p)) 0 = Z.pos p.
Proof. rewrite <- of_uint_horner, DecimalPos.Unsigned.of_to. reflexivity. Qed.

Lemma show_digits_length (ds : list Z) :
  String.length (show_digits ds) = List.length ds.
Proof. induction ds; cbn; congruence. Qed.

Lemma show_digits_prefix (k : nat) (ds : list Z) :
  substring 0 k (show_digits ds) = show_digits (firstn k ds).
Proof.
  revert ds. induction k as [| k IH]; intros ds.
  - destruct ds; reflexivity.
  - destruct ds as [| d rest]; [reflexivity |]. cbn. now rewrite IH.
Qed.

Lemma digits_of_shown_start (ds : list Z) :
  Forall is_digit ds ->
  ds <> [] ->
  JS.digits 10 (show_digits ds) None = Some (horner ds 0).
Proof.
  intros H Hne. destruct H as [| k rest Hk Hrest]; [congruence |].
  cbn [show_digits JS.digits]. rewrite (digit_value_digit k Hk).
  now rewrite digits_of_shown.
Qed.

Lemma parseInt_shown (ds : list Z) :
  Forall is_digit ds ->
  ds <> [] ->
  JS.parseInt (show_digits ds) = JS.Num (horner ds 0).
Proof.
  intros H Hne.
  assert (Hparse : JS.parseInt (show_digits ds)
                   = match JS.digits 10 (show_digits ds) None with
                     | Some n => JS.Num (1 * n)
                     | None => JS.NaN
                     end).
  { destruct H as [| k rest Hk Hrest]; [congruence |].
    destruct (digit_cases k Hk)
      as [-> | [-> | [-> | [-> | [-> | [-> | [-> | [-> | [-> | ->]]]]]]]]];
      [| reflexivity ..].
    destruct Hrest as [| k' rest' Hk' Hrest']; [reflexivity |].
    destruct (digit_cases k' Hk')
      as [-> | [-> | [-> | [-> | [-> | [-> | [-> | [-> | [-> | ->]]]]]]]]];
      reflexivity. }
  rewrite Hparse, (digits_of_shown_start ds H Hne). f_equal. lia.
Qed.

Lemma toString_pos (p : positive) :
  JS.toString (Z.pos p) = show_digits (uint_digits (Pos.to_uint p)).
Proof.
  unfold JS.toString. cbn [Z.to_int NilZero.string_of_int].
  unfold NilZero.string_of_uint.
  pose proof (DecimalPos.Unsigned.to_uint_nonnil p) as Hne.
  destruct (Pos.to_uint p) eqn:Hd; [congruence | ..];
    rewrite <- string_of_uint_digits; reflexivity.
Qed.

Lemma horner_firstn (ds : list Z) (k : nat) :
  Forall is_digit ds ->
  (k <= List.length ds)%nat ->
  horner (firstn k ds) 0
  = horner ds 0 / 10 ^ Z.of_nat (List.length ds - k).
Proof.
  intros H Hk.
  rewrite <- (firstn_skipn k ds) at 2.
  rewrite horner_app.
  assert (Hskip : Forall is_digit (skipn k ds)).
  { rewrite <- (firstn_skipn k ds) in H. now apply Forall_app in H. }
  destruct (horner_split (skipn k ds) (horner (firstn k ds) 0) Hskip)
    as [E B].
  rewrite length_skipn in E, B. rewrite E.
  apply Z.div_unique with (r := horner (skipn k ds) 0); [lia | lia].
Qed.

Lemma currentTime_seconds (now : Z) :
  1000 <= now -> currentTime now = JS.Num (now / 1000).
Proof.
  intros Hnow. destruct now as [| p |]; try lia.
  unfold currentTime, seconds_string, JS.slice_0_m3.
  rewrite toString_pos, show_digits_length, show_digits_prefix.
  pose proof (uint_digits_are_digits (Pos.to_uint p)) as Hds.
  pose proof (to_uint_horner p) as Hval.
  generalize dependent (uint_digits (Pos.to_uint p)). intros ds Hds Hval.
  assert (Hlen : (4 <= List.length ds)%nat).
  { destruct (horner_split ds 0 Hds) as [_ B]. rewrite Hval in B.
    destruct (Nat.le_gt_cases 4 (List.length ds)) as [Hle | Hlt]; [exact Hle |].
    assert (10 ^ Z.of_nat (List.length ds) <= 10 ^ 3)
      by (apply Z.pow_le_mono_r; lia).
    lia. }
  rewrite parseInt_shown.
  - rewrite (horner_firstn ds _ Hds) by lia. rewrite Hval.
    replace (List.length ds - (List.length ds - 3))%nat with 3%nat by lia.
    reflexivity.
  - rewrite <- (firstn_skipn (List.length ds - 3) ds) in Hds.
    now apply Forall_app in Hds.
  - destruct ds as [| d rest]; [cbn in Hlen; lia |].
    replace (List.length (d :: rest) - 3)%nat
      with (S (List.length rest - 3)) by (cbn [List.length] in Hlen |- *; lia).
    discriminate.
Qed.

Lemma split_prefix (a rest : string) :
  has_colon a = false ->
  JS.split ":" (a ++ String ":" rest) = a :: JS.split ":" rest.
Proof.
  induction a as [| c a' IH]; intros Hno.
  - reflexivity.
  - cbn [has_colon] in Hno. apply orb_false_elim in Hno. destruct Hno as [Hc Ha].
    cbn [String.append JS.split]. rewrite Hc, (IH Ha). reflexivity.
Qed.

Lemma split_whole (a : string) :
  has_colon a = false -> JS.split ":" a = [a].
Proof.
  induction a as [| c a' IH]; intros Hno; [reflexivity |].
  cbn [has_colon] in Hno. apply orb_false_elim in Hno. destruct Hno as [Hc Ha].
  cbn [JS.split]. rewrite Hc, (IH Ha). reflexivity.
Qed.

Lemma show_digits_no_colon (ds : list Z) :
  Forall is_digit ds -> has_colon (show_digits ds) = false.
Proof.
  induction 1 as [| k rest Hk Hrest IH]; [reflexivity |].
  cbn [show_digits has_colon]. rewrite IH, orb_false_r.
  destruct (digit_cases k Hk)
    as [-> | [-> | [-> | [-> | [-> | [-> | [-> | [-> | [-> | ->]]]]]]]]];
    reflexivity.
Qed.

Lemma prefix_no_colon (k : nat) (s : string) :
  has_colon s = false -> has_colon (substring 0 k s) = false.
Proof.
  revert s. induction k as [| k IH]; intros s Hno.
  - destruct s; reflexivity.
  - destruct s as [| c rest]; [reflexivity |].
    cbn [has_colon] in Hno. apply orb_false_elim in Hno. destruct Hno as [Hc Hrest].
    cbn [substring has_colon]. now rewrite Hc, IH.
Qed.

Lemma toString_no_colon (z : Z) : has_colon (JS.toString z) = false.
Proof.
  destruct z as [| p | p].
  - reflexivity.
  - rewrite toString_pos. apply show_digits_no_colon, uint_digits_are_digits.
  - unfold JS.toString. cbn [Z.to_int NilZero.string_of_int has_colon].
    unfold NilZero.string_of_uint.
    pose proof (DecimalPos.Unsigned.to_uint_nonnil p) as Hne.
    change (Ascii.eqb "-" ":") with false. cbn [orb].
    destruct (Pos.to_uint p) eqn:Hd; [congruence | ..];
      rewrite string_of_uint_digits;
      apply show_digits_no_colon, uint_digits_are_digits.
Qed.

Lemma seconds_string_no_colon (now : Z) :
  has_colon (seconds_string now) = false.
Proof. apply prefix_no_colon, toString_no_colon. Qed.

Lemma challenge_time (address : string) (issued : Z) :
  has_colon address = false ->
  messageTime (requestMessageOwnershipVerification address issued)
  = currentTime issued.
Proof.
  intros Hno. unfold messageTime, requestMessageOwnershipVerification.
  change (":" ++ seconds_string issued ++ ":starRegistry")
    with (String ":" (seconds_string issued ++ String ":" "starRegistry")).
  rewrite (split_prefix _ _ Hno),
    (split_prefix _ _ (seconds_string_no_colon issued)).
  reflexivity.
Qed.

Lemma challenge_elapsed (address : string) (issued now : Z) :
  has_colon address = false ->
  1000 <= issued ->
  1000 <= now ->
  elapsed (requestMessageOwnershipVerification address issued) now
  = JS.Num (now / 1000 - issued / 1000).
Proof.
  intros Hno Hissued Hnow. unfold elapsed.
  rewrite (challenge_time _ _ Hno), !currentTime_seconds by assumption.
  reflexivity.
Qed.


Section Properties.

Context {E : Externals}.

(** ** Reading the array *)

Lemma index_app_left {A : Type} (pre rest : list A) (i : nat) :
  (i < List.length pre)%nat ->
  JS.index (pre ++ rest) (Z.of_nat i) = nth_error pre i.
Proof.
  intros Hi. unfold JS.index.
  destruct (Z.ltb_spec (Z.of_nat i) 0) as [Hneg | _]; [lia |].
  rewrite Nat2Z.id. now apply nth_error_app1.
Qed.

Lemma index_app_middle {A : Type} (pre rest : list A) (x : A) :
  JS.index (pre ++ x :: rest) (Z.of_nat (List.length pre)) = Some x.
Proof.
  unfold JS.index.
  destruct (Z.ltb_spec (Z.of_nat (List.length pre)) 0) as [Hneg | _];
    [lia |].
  rewrite Nat2Z.id, nth_error_app2 by lia.
  now rewrite Nat.sub_diag.
Qed.

Lemma index_nat {A : Type} (c : list A) (i : nat) :
  JS.index c (Z.of_nat i) = nth_error c i.
Proof.
  unfold JS.index.
  destruct (Z.ltb_spec (Z.of_nat i) 0) as [Hneg | _]; [lia |].
  now rewrite Nat2Z.id.
Qed.

Lemma chain_at_eq (i : Z) (s : Blockchain) :
  chain_at i s =
  (match JS.index (chain s) i with
   | Some b => Return b
   | None => Throw TypeError
   end, s).
Proof.
  unfold chain_at, bind, this_chain.
  now destruct (JS.index (chain s) i).
Qed.

Lemma same_hash_refl (h : option string) : same_hash h h = true.
Proof. destruct h; simpl; [apply String.eqb_refl | reflexivity]. Qed.

Lemma same_hash_eq (a b : option string) :
  same_hash a b = true <-> a = b.
Proof.
  destruct a, b; simpl; try (split; congruence).
  rewrite String.eqb_eq. split; congruence.
Qed.

(** ** The validator *)

Lemma validateBlockAt_eq (pre rest : list Block) (p b : Block)
    (acc : list Error) (s : Blockchain) :
  chain s = (pre ++ p :: b :: rest)%list ->
  validateBlockAt (Z.of_nat (List.length pre) + 1) acc s =
  (Return (acc ++ errors_of p b)%list, s).
Proof.
  intros Hc. unfold validateBlockAt, after_validate, bind.
  assert (Hb : JS.index (chain s) (Z.of_nat (List.length pre) + 1) = Some b).
  { rewrite Hc.
    replace (pre ++ p :: b :: rest)%list with ((pre ++ [p]) ++ b :: rest)%list
      by now rewrite <- app_assoc.
    replace (Z.of_nat (List.length pre) + 1)
      with (Z.of_nat (List.length (pre ++ [p])%list))
      by (rewrite length_app; simpl; lia).
    apply index_app_middle. }
  assert (Hp : JS.index (chain s) (Z.of_nat (List.length pre) + 1 - 1)
               = Some p).
  { rewrite Hc, Z.add_simpl_r. apply index_app_middle. }
  rewrite !chain_at_eq, Hb, Hp. unfold ret, errors_of.
  destruct (validate b), (same_hash (previousBlockHash b) (hash p)); simpl;
    rewrite <- ?app_assoc, ?app_nil_r; reflexivity.
Qed.

Lemma validate_loop (rest pre : list Block) (p : Block) (acc : list Error)
    (s : Blockchain) :
  chain s = (pre ++ p :: rest)%list ->
  for_each (count_from (Z.of_nat (List.length pre) + 1) (List.length rest))
    validateBlockAt acc s =
  (Return (acc ++ expected_errors (p :: rest))%list, s).
Proof.
  revert pre p acc.
  induction rest as [| b rest IH]; intros pre p acc Hc.
  - simpl. unfold ret. now rewrite app_nil_r.
  - cbn [List.length count_from for_each]. unfold bind at 1.
    rewrite (validateBlockAt_eq pre rest p b acc s Hc).
    specialize (IH (pre ++ [p])%list b (acc ++ errors_of p b)%list).
    rewrite length_app in IH. cbn [List.length] in IH.
    replace (Z.of_nat (List.length pre + 1) + 1)
      with (Z.of_nat (List.length pre) + 1 + 1) in IH by lia.
    rewrite IH by now rewrite <- app_assoc.
    cbn [expected_errors]. now rewrite app_assoc.
Qed.

Lemma validateChain_eq (s : Blockchain) :
  consistent s ->
  validateChain s = (Return (expected_errors (chain s)), s).
Proof.
  unfold consistent, validateChain, bind, this_height, range.
  intros Hh. rewrite Hh.
  destruct (chain s) as [| p rest] eqn:Hc.
  - reflexivity.
  - replace (Z.to_nat (Z.of_nat (List.length (p :: rest)) - 1 - 1 + 1))
      with (List.length rest) by (cbn [List.length]; lia).
    apply (validate_loop rest [] p [] s). now rewrite Hc.
Qed.

Lemma errors_at_tail (p : Block) (c : list Block) (i : nat) :
  (1 <= i)%nat -> errors_at (p :: c) (S i) = errors_at c i.
Proof.
  intros Hi. unfold errors_at.
  replace (S i - 1)%nat with (S (i - 1)) by lia. reflexivity.
Qed.

Lemma flat_map_shift (p : Block) (c : list Block) (n : nat) :
  flat_map (errors_at (p :: c)) (seq 2 n) = flat_map (errors_at c) (seq 1 n).
Proof.
  rewrite <- (seq_shift n 1), !flat_map_concat_map, map_map. f_equal.
  apply map_ext_in. intros i Hi. apply in_seq in Hi.
  apply errors_at_tail. lia.
Qed.

(** The defects of a chain, height by height. *)
Lemma expected_errors_by_height (c : list Block) :
  expected_errors c
  = flat_map (errors_at c) (seq 1 (List.length c - 1)).
Proof.
  induction c as [| p rest IH]; [reflexivity |].
  destruct rest as [| b rest']; [reflexivity |].
  change (expected_errors (p :: b :: rest'))
    with (errors_of p b ++ expected_errors (b :: rest'))%list.
  rewrite IH. cbn [List.length Nat.sub seq flat_map].
  rewrite Nat.sub_0_r, flat_map_shift. reflexivity.
Qed.

(** C3: on every chain whose cached height agrees with its length,
    [validateChain] returns, without stopping at the first defect and
    without touching the chain, the whole list of defects in ascending
    height order: for each height from 1 up, a corrupt-block error when the
    self-check of the block there fails, then a broken-link error when its
    [previousBlockHash] differs from the hash of the block below.  The
    genesis block is tested for neither. *)
Theorem validateChain_reports_every_defect (s : Blockchain) :
  consistent s ->
  validateChain s = (Return (expected_errors (chain s)), s) /\
  expected_errors (chain s)
  = flat_map (errors_at (chain s)) (seq 1 (List.length (chain s) - 1)).
Proof.
  intros Hcons. split.
  - exact (validateChain_eq s Hcons).
  - apply expected_errors_by_height.
Qed.

(** ** Appending *)

Lemma index_last (c : list Block) (d : Block) :
  c <> [] ->
  JS.index c (Z.of_nat (List.length c) - 1) = Some (last c d).
Proof.
  intros Hne. destruct (exists_last Hne) as [pre [x ->]].
  rewrite last_last, length_app. cbn [List.length].
  replace (Z.of_nat (List.length pre + 1) - 1)
    with (Z.of_nat (List.length pre)) by lia.
  apply index_app_middle.
Qed.

Lemma seal_and_push_eq (now : Z) (block : Block) (s : Blockchain) :
  consistent s ->
  seal_and_push now block s =
  (Return (next_block now (chain s) block),
   mkBlockchain (chain s ++ [next_block now (chain s) block])
     (chain_height s + 1)).
Proof.
  unfold consistent. intros Hh.
  unfold seal_and_push, bind, this_height, set_this_height, next_block.
  cbn [chain chain_height].
  destruct (chain s) as [| x c] eqn:Hc.
  - rewrite Hh. reflexivity.
  - assert (Hpos : (0 <? chain_height s + 1) = true)
      by (apply Z.ltb_lt; rewrite Hh; cbn [List.length]; lia).
    rewrite Hpos, chain_at_eq. cbn [chain].
    replace (chain_height s + 1 - 1)
      with (Z.of_nat (List.length (x :: c)) - 1) by lia.
    rewrite (index_last (x :: c)
               (set_time (seconds_string now)
                  (set_height (Z.of_nat (List.length (x :: c))) block)))
      by discriminate.
    unfold ret, chain_push. cbn [chain chain_height].
    replace (chain_height s + 1) with (Z.of_nat (List.length (x :: c)))
      by lia.
    reflexivity.
Qed.

Lemma addBlock_eq (now : Z) (block : Block) (s : Blockchain) :
  consistent s ->
  _addBlock now block s =
  match expected_errors (chain s) with
  | [] =>
      (Return (next_block now (chain s) block),
       mkBlockchain (chain s ++ [next_block now (chain s) block])
         (chain_height s + 1))
  | _ :: _ => (Throw ChainInvalid, s)
  end.
Proof.
  intros Hs. unfold _addBlock, bind.
  rewrite (validateChain_eq s Hs).
  destruct (expected_errors (chain s)); cbn [List.length Nat.ltb Nat.leb].
  - now apply seal_and_push_eq.
  - reflexivity.
Qed.

Lemma consistent_push (s : Blockchain) (b : Block) :
  consistent s ->
  consistent (mkBlockchain (chain s ++ [b]) (chain_height s + 1)).
Proof.
  unfold consistent. cbn [chain chain_height]. intros ->.
  rewrite length_app. cbn [List.length]. lia.
Qed.

(** A failed [_addBlock] on a consistent object changes nothing. *)
Lemma addBlock_throw_same (now : Z) (block : Block) (s s' : Blockchain)
    (e : Error) :
  consistent s ->
  _addBlock now block s = (Throw e, s') ->
  e = ChainInvalid /\ s' = s.
Proof.
  intros Hs. rewrite (addBlock_eq now block s Hs).
  destruct (expected_errors (chain s)); intros H; inversion H; auto.
Qed.

(** ** Chains without defect *)

Lemma linked_no_error (c : list Block) :
  linked c -> expected_errors c = [].
Proof.
  induction c as [| p rest IH]; [reflexivity |].
  destruct rest as [| b rest']; [reflexivity |].
  intros (Hv & Hl & Hrest).
  change (expected_errors (p :: b :: rest'))
    with (errors_of p b ++ expected_errors (b :: rest'))%list.
  rewrite (IH Hrest). unfold errors_of.
  rewrite Hv, Hl, same_hash_refl. reflexivity.
Qed.

Lemma no_error_linked (c : list Block) :
  expected_errors c = [] -> linked c.
Proof.
  induction c as [| p rest IH]; [exact (fun _ => I) |].
  destruct rest as [| b rest']; [exact (fun _ => I) |].
  change (expected_errors (p :: b :: rest'))
    with (errors_of p b ++ expected_errors (b :: rest'))%list.
  unfold errors_of. intros H.
  apply app_eq_nil in H. destruct H as [H Hrest].
  apply app_eq_nil in H. destruct H as [Hv Hl].
  destruct (validate b) eqn:Hvalid; [| discriminate].
  destruct (same_hash (previousBlockHash b) (hash p)) eqn:Hsame;
    [| discriminate].
  apply same_hash_eq in Hsame.
  change (validate b = true /\ previousBlockHash b = hash p
          /\ linked (b :: rest')).
  repeat split; [exact Hvalid | exact Hsame | exact (IH Hrest)].
Qed.

Lemma linked_snoc (c : list Block) (b d : Block) :
  linked c ->
  (c <> [] -> validate b = true /\ previousBlockHash b = hash (last c d)) ->
  linked (c ++ [b]).
Proof.
  induction c as [| p rest IH]; intros Hl Hb; [exact I |].
  destruct rest as [| q rest'].
  - cbn. destruct Hb as [Hv Hp]; [discriminate |]. auto.
  - destruct Hl as (Hv & Hp & Hrest).
    change ((p :: q :: rest') ++ [b])%list
      with (p :: q :: (rest' ++ [b]))%list.
    cbn [linked]. repeat split; auto.
    change (q :: (rest' ++ [b]))%list with ((q :: rest') ++ [b])%list.
    apply IH; auto. intros _. apply Hb. discriminate.
Qed.

Lemma linked_nth (c : list Block) (i : nat) (p b : Block) :
  linked c ->
  nth_error c i = Some p ->
  nth_error c (S i) = Some b ->
  validate b = true /\ previousBlockHash b = hash p.
Proof.
  revert i. induction c as [| x rest IH]; intros i Hl Hp Hb.
  - destruct i; discriminate.
  - destruct rest as [| y rest']; [destruct i; discriminate |].
    destruct Hl as (Hv & Hlink & Hrest).
    destruct i as [| i'].
    + cbn in Hp, Hb. inversion Hp; inversion Hb; subst. auto.
    + apply (IH i'); auto.
Qed.

Lemma heights_from_snoc (blocks : list Block) (from : Z) (b : Block) :
  heights_from from blocks ->
  height b = from + Z.of_nat (List.length blocks) ->
  heights_from from (blocks ++ [b]).
Proof.
  revert from. induction blocks as [| x rest IH]; intros from Hh Hb.
  - cbn in *. split; [lia | exact I].
  - destruct Hh as [Hx Hrest]. cbn [app heights_from]. split; [exact Hx |].
    apply IH; [exact Hrest |]. cbn [List.length] in Hb. lia.
Qed.

Lemma heights_from_nth (blocks : list Block) (from : Z) (i : nat)
    (b : Block) :
  heights_from from blocks ->
  nth_error blocks i = Some b ->
  height b = from + Z.of_nat i.
Proof.
  revert from i. induction blocks as [| x rest IH]; intros from i Hh Hb.
  - destruct i; discriminate.
  - destruct Hh as [Hx Hrest]. destruct i as [| i'].
    + cbn in Hb. inversion Hb; subst. lia.
    + cbn in Hb. rewrite (IH (from + 1) i' Hrest Hb). lia.
Qed.

(** ** The block an append makes *)

Lemma next_block_height (now : Z) (c : list Block) (block : Block) :
  height (next_block now c block) = Z.of_nat (List.length c).
Proof. unfold next_block. destruct c; reflexivity. Qed.

Lemma next_block_body (now : Z) (c : list Block) (block : Block) :
  body (next_block now c block) = body block.
Proof. unfold next_block. destruct c; reflexivity. Qed.

Lemma next_block_time (now : Z) (c : list Block) (block : Block) :
  time (next_block now c block) = seconds_string now.
Proof. unfold next_block. destruct c; reflexivity. Qed.

Lemma last_default {A : Type} (l : list A) (d d' : A) :
  l <> [] -> last l d = last l d'.
Proof.
  induction l as [| a l' IH]; [congruence |]. intros _.
  destruct l' as [| a' l'']; [reflexivity |].
  change (last (a' :: l'') d = last (a' :: l'') d').
  apply IH. discriminate.
Qed.

Lemma next_block_previous (now : Z) (c : list Block) (block d : Block) :
  c <> [] ->
  previousBlockHash (next_block now c block) = hash (last c d).
Proof.
  unfold next_block. destruct c as [| x rest]; [congruence |]. intros Hne.
  cbn [previousBlockHash set_hash set_previousBlockHash].
  f_equal. now apply last_default.
Qed.

Lemma next_block_previous_genesis (now : Z) (block : Block) :
  previousBlockHash (next_block now [] block) = previousBlockHash block.
Proof. reflexivity. Qed.

(** A block that enters [_addBlock] with an empty [hash] leaves it with
    the digest of its other fields. *)
Lemma next_block_hash (now : Z) (c : list Block) (block : Block) :
  hash block = None ->
  hash (next_block now c block)
  = Some (digest (next_block now c block)).
Proof.
  intros Hnone. unfold next_block, digest.
  destruct block as [h ht bd tm pv]. cbn in Hnone. subst h.
  destruct c; reflexivity.
Qed.

Lemma next_block_validate (now : Z) (c : list Block) (block : Block) :
  hash block = None ->
  validate (next_block now c block) = true.
Proof.
  intros Hnone. unfold validate.
  rewrite (next_block_hash now c block Hnone). apply same_hash_refl.
Qed.

(** ** What every state of a chain satisfies *)

Lemma built_invariant (n : nat) (s : Blockchain) :
  built n s ->
  consistent s /\
  List.length (chain s) = n /\
  linked (chain s) /\
  heights_from 0 (chain s) /\
  Forall sealed (chain s).
Proof.
  induction 1 as [| n s data now b s' Hbuilt IH Hadd
                  | n s data now e s' Hbuilt IH Hadd].
  - repeat split; try exact I. constructor.
  - destruct IH as (Hcons & Hlen & Hlinked & Hheights & Hsealed).
    rewrite (addBlock_eq now (new_Block data) s Hcons) in Hadd.
    rewrite (linked_no_error _ Hlinked) in Hadd.
    inversion Hadd; subst b s'; clear Hadd. cbn [chain].
    repeat split.
    + now apply consistent_push.
    + rewrite length_app, Hlen. cbn [List.length]. lia.
    + apply (linked_snoc _ _ (new_Block data) Hlinked). intros Hne. split.
      * now apply next_block_validate.
      * now apply next_block_previous.
    + apply heights_from_snoc; [exact Hheights |].
      rewrite next_block_height. lia.
    + apply Forall_app. split; [exact Hsealed |].
      constructor; [| constructor].
      now apply next_block_hash.
  - destruct IH as (Hcons & IH).
    destruct (addBlock_throw_same now (new_Block data) s s' e Hcons Hadd)
      as [_ ->].
    now split.
Qed.

(** Both callers of [_addBlock] keep an object among the states of
    [built]: nothing else of the class writes. *)
Lemma initializeChain_built (n : nat) (now : Z) (s : Blockchain) :
  built n s ->
  exists n', built n' (snd (initializeChain now s)).
Proof.
  intros Hbuilt. unfold initializeChain, bind, this_height.
  destruct (chain_height s =? -1); [| now exists n].
  destruct (_addBlock now (new_Block (GenesisData "Genesis Block")) s)
    as [[b | e] s'] eqn:Hadd; cbn [snd ret].
  - exists (S n). eapply built_append; eassumption.
  - exists n. eapply built_reject; eassumption.
Qed.

Lemma submitStar_built (n : nat) (address message signature : string)
    (star : Star) (now now' : Z) (s : Blockchain) :
  built n s ->
  exists n',
    built n' (snd (submitStar address message signature star now now' s)).
Proof.
  intros Hbuilt. unfold submitStar.
  destruct (JS.gt (elapsed message now) (JS.Num 300)); [now exists n |].
  destruct (verify message address signature); try (now exists n).
  unfold bind.
  destruct (_addBlock now' (new_Block (StarData address star)) s)
    as [[b | e] s'] eqn:Hadd; cbn [snd ret].
  - exists (S n). eapply built_append; eassumption.
  - exists n. eapply built_reject; eassumption.
Qed.

(** C1: in every state a chain reaches through [n] successful appends
    (with failed attempts anywhere in between), the cached height is
    [n - 1] and is [chain.length - 1], it is the stored height of the last
    block, the stored height of every block is its index, and every block
    above the first carries the hash of the block before it as its
    [previousBlockHash]. *)
Theorem chain_invariant (n : nat) (s : Blockchain) :
  built n s ->
  chain_height s = Z.of_nat n - 1 /\
  chain_height s = Z.of_nat (List.length (chain s)) - 1 /\
  (forall d, chain s <> [] -> height (last (chain s) d) = chain_height s) /\
  (forall i b, nth_error (chain s) i = Some b -> height b = Z.of_nat i) /\
  (forall i p b,
      nth_error (chain s) i = Some p ->
      nth_error (chain s) (S i) = Some b ->
      previousBlockHash b = hash p).
Proof.
  intros Hbuilt.
  destruct (built_invariant n s Hbuilt)
    as (Hcons & Hlen & Hlinked & Hheights & _).
  unfold consistent in Hcons.
  assert (Hnth : forall i b,
             nth_error (chain s) i = Some b -> height b = Z.of_nat i).
  { intros i b Hb. now rewrite (heights_from_nth _ 0 i b Hheights Hb). }
  repeat split.
  - rewrite Hcons, Hlen. reflexivity.
  - exact Hcons.
  - intros d Hne.
    pose proof (index_last (chain s) d Hne) as Hlast.
    replace (Z.of_nat (List.length (chain s)) - 1)
      with (Z.of_nat (List.length (chain s) - 1)) in Hlast
      by (destruct (chain s); [congruence | cbn [List.length]; lia]).
    rewrite index_nat in Hlast. rewrite (Hnth _ _ Hlast), Hcons.
    destruct (chain s); [congruence | cbn [List.length]; lia].
  - exact Hnth.
  - intros i p b Hp Hb.
    now destruct (linked_nth (chain s) i p b Hlinked Hp Hb).
Qed.

Lemma digest_ignores_hash (h : option string) (b : Block) :
  digest (set_hash h b) = digest b.
Proof. destruct b. reflexivity. Qed.

(** C2: every block of a chain built by appends is sealed: its stored
    hash is the digest of its serialization with the [hash] slot empty,
    a value that depends on height, time, payload and previous hash only
    and was taken once these had their final values; so the self-check,
    which recomputes that digest from the stored fields, reproduces the
    stored hash. *)
Theorem appended_block_hash_is_digest (n : nat) (s : Blockchain)
    (b : Block) :
  built n s ->
  In b (chain s) ->
  hash b = Some (SHA256 (JSON_stringify (set_hash None b))) /\
  (forall h, digest (set_hash h b) = digest b) /\
  digest b
  = SHA256 (JSON_stringify
              (mkBlock None (height b) (body b) (time b)
                 (previousBlockHash b))) /\
  validate b = true.
Proof.
  intros Hbuilt Hin.
  destruct (built_invariant n s Hbuilt) as (_ & _ & _ & _ & Hsealed).
  rewrite Forall_forall in Hsealed. pose proof (Hsealed b Hin) as Hb.
  unfold sealed in Hb. split; [| split; [| split]].
  - exact Hb.
  - intros h. apply digest_ignores_hash.
  - destruct b. reflexivity.
  - unfold validate. rewrite Hb. apply same_hash_refl.
Qed.

(** ** Failures *)

Lemma validateBlockAt_pure (i : Z) (acc : list Error) (s : Blockchain) :
  (exists acc', validateBlockAt i acc s = (Return acc', s)) \/
  validateBlockAt i acc s = (Throw TypeError, s).
Proof.
  unfold validateBlockAt, after_validate, bind.
  rewrite !chain_at_eq.
  destruct (JS.index (chain s) i) as [b |]; [| now right].
  destruct (JS.index (chain s) (i - 1)) as [p |]; [| now right].
  left. eexists. reflexivity.
Qed.

Lemma validate_loop_pure (idx : list Z) (acc : list Error)
    (s : Blockchain) :
  (exists acc', for_each idx validateBlockAt acc s = (Return acc', s)) \/
  for_each idx validateBlockAt acc s = (Throw TypeError, s).
Proof.
  revert acc. induction idx as [| i rest IH]; intros acc.
  - left. now exists acc.
  - cbn [for_each]. unfold bind.
    destruct (validateBlockAt_pure i acc s) as [[acc' ->] | ->].
    + apply IH.
    + now right.
Qed.

(** The validator never writes, and the only thing it can throw is the
    TypeError of an empty slot. *)
Lemma validateChain_pure (s : Blockchain) :
  (exists errorLog, validateChain s = (Return errorLog, s)) \/
  validateChain s = (Throw TypeError, s).
Proof.
  unfold validateChain, bind, this_height. apply validate_loop_pure.
Qed.

Lemma seal_and_push_throws (now : Z) (block : Block) (s s' : Blockchain)
    (e : Error) :
  seal_and_push now block s = (Throw e, s') -> e = TypeError.
Proof.
  unfold seal_and_push, bind, this_height, set_this_height.
  cbn [chain chain_height].
  destruct (0 <? chain_height s + 1).
  - rewrite chain_at_eq. cbn [chain].
    destruct (JS.index (chain s) (chain_height s + 1 - 1));
      unfold ret, chain_push; intros H; inversion H; reflexivity.
  - unfold ret, chain_push. intros H; inversion H.
Qed.

(** [_addBlock] throws 'The chain is invalid' before it writes anything;
    whatever else it throws is a TypeError. *)
Lemma addBlock_throws (now : Z) (block : Block) (s s' : Blockchain)
    (e : Error) :
  _addBlock now block s = (Throw e, s') ->
  (e = ChainInvalid /\ s' = s) \/ e = TypeError.
Proof.
  unfold _addBlock, bind.
  destruct (validateChain_pure s) as [[errorLog ->] | ->].
  - destruct (0 <? List.length errorLog)%nat.
    + intros H; inversion H. now left.
    + intros H. right. eapply seal_and_push_throws; eassumption.
  - intros H; inversion H. now right.
Qed.

Lemma bind_ret {A : Type} (m : M A) (s : Blockchain) :
  bind m (fun a => ret a) s = m s.
Proof. unfold bind, ret. destruct (m s) as [[a | e] s']; reflexivity. Qed.

(** The three ways through [submitStar]. *)
Lemma submitStar_eq (address message signature : string) (star : Star)
    (now now' : Z) (s : Blockchain) :
  submitStar address message signature star now now' s =
  if JS.gt (elapsed message now) (JS.Num 300)
  then (Throw MessageTimedOut, s)
  else
    match verify message address signature with
    | VerifyThrew msg => (Throw (LibraryError msg), s)
    | NotVerified => (Throw CouldntVerify, s)
    | Verified => _addBlock now' (new_Block (StarData address star)) s
    end.
Proof.
  unfold submitStar.
  destruct (JS.gt (elapsed message now) (JS.Num 300)); [reflexivity |].
  destruct (verify message address signature); try reflexivity.
  apply bind_ret.
Qed.

(** C4: a call of [submitStar] that fails because the challenge expired,
    because the signature does not verify or because the chain was found
    invalid leaves the chain and the cached height as they were; and on an
    object whose cached height agrees with its chain, every failing call
    does. *)
Theorem submitStar_failure_changes_nothing
    (address message signature : string) (star : Star) (now now' : Z)
    (s s' : Blockchain) (e : Error) :
  submitStar address message signature star now now' s = (Throw e, s') ->
  (e = MessageTimedOut \/ e = CouldntVerify \/ e = ChainInvalid ->
   chain s' = chain s /\ chain_height s' = chain_height s /\ s' = s) /\
  (consistent s ->
   chain s' = chain s /\ chain_height s' = chain_height s /\ s' = s).
Proof.
  rewrite submitStar_eq. intros Hfail.
  assert (Hsame : e <> TypeError \/ consistent s -> s' = s).
  { destruct (JS.gt (elapsed message now) (JS.Num 300));
      [now inversion Hfail |].
    destruct (verify message address signature);
      try (now inversion Hfail).
    intros [Hne | Hcons].
    - destruct (addBlock_throws _ _ _ _ _ Hfail) as [[_ ->] | ->];
        [reflexivity | congruence].
    - now destruct (addBlock_throw_same _ _ _ _ _ Hcons Hfail). }
  split.
  - intros Hkind.
    assert (s' = s) as -> by
        (apply Hsame; left; destruct Hkind as [-> | [-> | ->]]; discriminate).
    auto.
  - intros Hcons. assert (s' = s) as -> by (apply Hsame; now right). auto.
Qed.

(** ** The freshness test *)

Lemma gt_300 (x : JS.Number) :
  JS.gt x (JS.Num 300) = true <-> exists d, x = JS.Num d /\ 300 < d.
Proof.
  destruct x as [| d]; cbn.
  - split; [discriminate | intros (d & H & _); discriminate].
  - rewrite Z.ltb_lt. split.
    + intros H. now exists d.
    + intros (d' & H & Hd). now inversion H; subst.
Qed.

Lemma submitStar_timed_out (address message signature : string)
    (star : Star) (now now' : Z) (s : Blockchain) :
  fst (submitStar address message signature star now now' s)
  = Throw MessageTimedOut <->
  JS.gt (elapsed message now) (JS.Num 300) = true.
Proof.
  rewrite submitStar_eq.
  destruct (JS.gt (elapsed message now) (JS.Num 300)).
  - cbn. split; reflexivity.
  - split; [| discriminate]. intros H.
    destruct (verify message address signature); try discriminate.
    destruct (_addBlock now' (new_Block (StarData address star)) s)
      as [[b | e] s'] eqn:Hadd; [discriminate |].
    cbn in H. inversion H; subst e.
    destruct (addBlock_throws _ _ _ _ _ Hadd) as [[Habs _] | Habs];
      discriminate.
Qed.

(** C5: [submitStar] fails with 'Message timed out' exactly when the
    elapsed time [currentTime - messageTime] is a number strictly above
    300: 299 passes the test, 301 fails it, and nothing bounds the elapsed
    time from below, so a timestamp in the future passes too. *)
Theorem challenge_expires_above_300_seconds
    (address message signature : string) (star : Star) (now now' : Z)
    (s : Blockchain) :
  (fst (submitStar address message signature star now now' s)
   = Throw MessageTimedOut <->
   exists d, elapsed message now = JS.Num d /\ 300 < d) /\
  (elapsed message now = JS.Num 299 ->
   fst (submitStar address message signature star now now' s)
   <> Throw MessageTimedOut) /\
  (elapsed message now = JS.Num 301 ->
   fst (submitStar address message signature star now now' s)
   = Throw MessageTimedOut) /\
  (forall d, elapsed message now = JS.Num d -> d < 0 ->
   fst (submitStar address message signature star now now' s)
   <> Throw MessageTimedOut).
Proof.
  assert (Hiff :
            fst (submitStar address message signature star now now' s)
            = Throw MessageTimedOut <->
            exists d, elapsed message now = JS.Num d /\ 300 < d)
    by (rewrite submitStar_timed_out; apply gt_300).
  split; [exact Hiff |]. split; [| split].
  - intros H Hout. apply Hiff in Hout. destruct Hout as (d & Hd & Hlt).
    rewrite H in Hd. inversion Hd. lia.
  - intros H. apply Hiff. exists 301. split; [exact H | lia].
  - intros d H Hneg Hout. apply Hiff in Hout.
    destruct Hout as (d' & Hd & Hlt). rewrite H in Hd. inversion Hd. lia.
Qed.
(** On the clock: a challenge issued to an address at [issued] and submitted
    at [now], both in milliseconds, is refused as timed out exactly when
    more than 300 whole seconds lie between the two. *)
Lemma challenge_expiry_on_the_clock (address signature : string)
    (star : Star) (issued now now' : Z) (s : Blockchain) :
  has_colon address = false ->
  1000 <= issued ->
  1000 <= now ->
  fst (submitStar address
         (requestMessageOwnershipVerification address issued) signature star
         now now' s)
  = Throw MessageTimedOut <->
  300 < now / 1000 - issued / 1000.
Proof.
  intros Hno Hissued Hnow.
  rewrite submitStar_timed_out, gt_300,
    (challenge_elapsed address issued now Hno Hissued Hnow).
  split.
  - intros (d & Hd & Hlt). inversion Hd. lia.
  - intros Hlt. eexists. split; [reflexivity | exact Hlt].
Qed.

(** ** Messages without a timestamp *)

Lemma nan_not_above_300 (message : string) (now : Z) :
  messageTime message = JS.NaN ->
  JS.gt (elapsed message now) (JS.Num 300) = false.
Proof.
  unfold elapsed. intros ->. now destruct (currentTime now).
Qed.

Lemma messageTime_absent (message : string) :
  JS.index (JS.split ":" message) 1 = None ->
  messageTime message = JS.NaN.
Proof. unfold messageTime. now intros ->. Qed.

(** C6, as the code has it: the class knows no malformed-message error.  A
    message whose second colon-delimited field is absent or does not
    parse to a number passes the freshness test, so the signature check is
    reached and the call does what that check and the append decide. *)
Theorem message_without_timestamp_reaches_verification
    (address message signature : string) (star : Star) (now now' : Z)
    (s : Blockchain) :
  messageTime message = JS.NaN ->
  submitStar address message signature star now now' s =
  match verify message address signature with
  | VerifyThrew msg => (Throw (LibraryError msg), s)
  | NotVerified => (Throw CouldntVerify, s)
  | Verified => _addBlock now' (new_Block (StarData address star)) s
  end.
Proof.
  intros Hnan. rewrite submitStar_eq.
  now rewrite (nan_not_above_300 message now Hnan).
Qed.

(** C10: on a chain built by appends, a call of [submitStar] whose message
    has no numeric second field is never rejected for its timestamp: it
    appends a block and returns it when the signature verifies, and fails
    with the error of the signature check, leaving the chain as it was,
    when it does not. *)
Theorem timestampless_message_decided_by_signature
    (n : nat) (address message signature : string) (star : Star)
    (now now' : Z) (s : Blockchain) :
  built n s ->
  messageTime message = JS.NaN ->
  fst (submitStar address message signature star now now' s)
  <> Throw MessageTimedOut /\
  ((verify message address signature = Verified /\
    exists b,
      submitStar address message signature star now now' s
      = (Return b, mkBlockchain (chain s ++ [b]) (chain_height s + 1))) \/
   (verify message address signature = NotVerified /\
    submitStar address message signature star now now' s
    = (Throw CouldntVerify, s)) \/
   (exists msg,
      verify message address signature = VerifyThrew msg /\
      submitStar address message signature star now now' s
      = (Throw (LibraryError msg), s))).
Proof.
  intros Hbuilt Hnan.
  destruct (built_invariant n s Hbuilt) as (Hcons & _ & Hlinked & _).
  split.
  - rewrite submitStar_timed_out, (nan_not_above_300 message now Hnan).
    discriminate.
  - rewrite submitStar_eq, (nan_not_above_300 message now Hnan).
    destruct (verify message address signature) as [| | msg].
    + left. split; [reflexivity |].
      rewrite (addBlock_eq _ _ s Hcons), (linked_no_error _ Hlinked).
      eexists. reflexivity.
    + right. left. now split.
    + right. right. exists msg. now split.
Qed.

(** ** The genesis block *)

(** C7: a [Blockchain] constructed on the empty state (height -1) gets
    one block, at height 0, whose payload is [{ data: 'Genesis Block' }],
    made by the same [_addBlock] that appends stars; [initializeChain] on
    an object whose height is no longer -1 adds nothing, so initializing
    the constructed object again leaves its single genesis block alone. *)
Theorem genesis_block_created_once (now : Z) :
  let genesis := next_block now [] (new_Block (GenesisData "Genesis Block")) in
  new_Blockchain now = (Return tt, mkBlockchain [genesis] 0) /\
  height genesis = 0 /\
  body genesis = encode (GenesisData "Genesis Block") /\
  previousBlockHash genesis = None /\
  hash genesis = Some (digest genesis) /\
  initializeChain now empty_chain
  = bind (_addBlock now (new_Block (GenesisData "Genesis Block")))
      (fun _ => ret tt) empty_chain /\
  (forall now' s,
      chain_height s <> -1 -> initializeChain now' s = (Return tt, s)) /\
  (forall now',
      initializeChain now' (snd (new_Blockchain now))
      = (Return tt, mkBlockchain [genesis] 0)).
Proof.
  intros genesis.
  assert (Hnew : new_Blockchain now = (Return tt, mkBlockchain [genesis] 0)).
  { unfold new_Blockchain, initializeChain, bind, this_height.
    cbn [chain_height Z.eqb Pos.eqb].
    rewrite (addBlock_eq now _ (mkBlockchain [] (-1))) by reflexivity.
    reflexivity. }
  assert (Hagain : forall now' s,
             chain_height s <> -1 -> initializeChain now' s = (Return tt, s)).
  { intros now' s Hh. unfold initializeChain, bind, this_height.
    destruct (Z.eqb_spec (chain_height s) (-1)); [contradiction |].
    reflexivity. }
  split; [exact Hnew |].
  split; [reflexivity |].
  split; [reflexivity |].
  split; [reflexivity |].
  split; [now apply next_block_hash |].
  split; [reflexivity |].
  split; [exact Hagain |].
  intros now'. rewrite Hnew. apply Hagain. cbn. discriminate.
Qed.

(** ** The stars of a wallet *)

Lemma collectStarAt_eq (address : string) (pre rest : list Block)
    (b : Block) (acc : list (Payload Star)) (s : Blockchain) :
  chain s = (pre ++ b :: rest)%list ->
  collectStarAt address (Z.of_nat (List.length pre)) acc s =
  (match decode (body b) with
   | Some p =>
       Return (if owned_by address p then acc ++ [p] else acc)%list
   | None => Throw DecodeError
   end, s).
Proof.
  intros Hc. unfold collectStarAt, bind.
  rewrite chain_at_eq, Hc, index_app_middle.
  unfold getBData, owned_by.
  destruct (decode (body b)) as [p |]; [| reflexivity].
  unfold ret. now destruct (same_hash (owner_of p) (Some address)).
Qed.

Lemma collect_loop (address : string) (rest pre : list Block)
    (acc : list (Payload Star)) (s : Blockchain) :
  chain s = (pre ++ rest)%list ->
  for_each (count_from (Z.of_nat (List.length pre)) (List.length rest))
    (collectStarAt address) acc s =
  (match decode_all rest with
   | Some payloads => Return (acc ++ filter (owned_by address) payloads)%list
   | None => Throw DecodeError
   end, s).
Proof.
  revert pre acc. induction rest as [| b rest IH]; intros pre acc Hc.
  - cbn. unfold ret. now rewrite app_nil_r.
  - cbn [List.length count_from for_each decode_all]. unfold bind at 1.
    rewrite (collectStarAt_eq address pre rest b acc s Hc).
    destruct (decode (body b)) as [p |]; [| reflexivity].
    specialize (IH (pre ++ [b])%list
                  (if owned_by address p then acc ++ [p] else acc)%list).
    rewrite length_app in IH. cbn [List.length] in IH.
    replace (Z.of_nat (List.length pre + 1))
      with (Z.of_nat (List.length pre) + 1) in IH by lia.
    rewrite IH by now rewrite <- app_assoc.
    destruct (decode_all rest) as [payloads |]; [| reflexivity].
    cbn [filter]. destruct (owned_by address p); [| reflexivity].
    now rewrite <- app_assoc.
Qed.

Lemma getStars_eq (address : string) (s : Blockchain) :
  consistent s ->
  getStarsByWalletAddress address s = (expected_stars address (chain s), s).
Proof.
  unfold consistent, getStarsByWalletAddress, bind, this_height, range,
    expected_stars.
  intros Hh. rewrite Hh.
  destruct (chain s) as [| g rest] eqn:Hc.
  - reflexivity.
  - replace (Z.to_nat (Z.of_nat (List.length (g :: rest)) - 1 - 1 + 1))
      with (List.length rest) by (cbn [List.length]; lia).
    cbn [tl]. apply (collect_loop address rest [g] [] s). now rewrite Hc.
Qed.

(** C8: on every chain whose cached height agrees with its length,
    [getStarsByWalletAddress] leaves the genesis block aside, decodes the
    payload of every block above it and returns, in chain order, exactly
    the decoded payloads whose owner is the given address (the call fails
    when a payload cannot be decoded); no payload of another owner is in
    the result, and the chain is not touched. *)
Theorem stars_of_wallet_are_filtered_in_order (address : string)
    (s : Blockchain) :
  consistent s ->
  getStarsByWalletAddress address s =
  (match decode_all (tl (chain s)) with
   | Some payloads => Return (filter (owned_by address) payloads)
   | None => Throw DecodeError
   end, s) /\
  (forall stars p,
      fst (getStarsByWalletAddress address s) = Return stars ->
      In p stars -> owner_of p = Some address).
Proof.
  intros Hcons. rewrite (getStars_eq address s Hcons).
  split; [reflexivity |].
  unfold expected_stars. cbn [fst].
  destruct (decode_all (tl (chain s))) as [payloads |]; [| discriminate].
  intros stars p Heq Hin. inversion Heq; subst stars.
  apply filter_In in Hin. destruct Hin as [_ Howned].
  now apply same_hash_eq.
Qed.

(** ** Calls in flight together *)

Lemma replace_nth_length {A : Type} (k : nat) (x : A) (l : list A) :
  List.length (replace_nth k x l) = List.length l.
Proof.
  revert k. induction l as [| y rest IH]; intros k; [reflexivity |].
  destruct k; cbn; [reflexivity | now rewrite IH].
Qed.

Lemma replace_nth_Forall {A : Type} (P : A -> Prop) (k : nat) (x : A)
    (l : list A) :
  Forall P l -> P x -> Forall P (replace_nth k x l).
Proof.
  intros Hl Hx. revert k.
  induction Hl as [| y rest Hy Hrest IH]; intros k; [constructor |].
  destruct k; cbn; constructor; auto.
Qed.

Lemma replace_nth_work (top : Z) (k : nat) (t t' : Task) (l : list Task) :
  nth_error l k = Some t ->
  total_work top (replace_nth k t' l)
  = total_work top l - work top t + work top t'.
Proof.
  revert k. induction l as [| y rest IH]; intros k Hk.
  - destruct k; discriminate.
  - destruct k as [| k']; cbn in Hk |- *.
    + inversion Hk; subst. lia.
    + rewrite (IH k' Hk). lia.
Qed.

Lemma replace_nth_finished (k : nat) (t t' : Task) (l : list Task) :
  nth_error l k = Some t ->
  is_finished t = false ->
  finished_count (replace_nth k t' l)
  = (finished_count l + if is_finished t' then 1 else 0)%nat.
Proof.
  unfold finished_count. revert k.
  induction l as [| y rest IH]; intros k Hk Ht.
  - destruct k; discriminate.
  - destruct k as [| k']; cbn in Hk |- *.
    + inversion Hk; subst y. rewrite Ht.
      destruct (is_finished t'); cbn [List.length]; lia.
    + destruct (is_finished y); cbn [List.length];
        rewrite (IH k' Hk Ht); lia.
Qed.

Lemma finished_count_le (l : list Task) :
  (finished_count l <= List.length l)%nat.
Proof. unfold finished_count. apply filter_length_le. Qed.

Lemma total_work_nonneg (top : Z) (s : Blockchain) (l : list Task) :
  0 <= top ->
  chain_height s <= top ->
  Forall (task_ok s) l ->
  0 <= total_work top l.
Proof.
  intros Htop Hh Hl. induction Hl as [| t rest Ht Hrest IH]; [cbn; lia |].
  cbn [total_work].
  assert (0 <= work top t); [| lia].
  destruct t; cbn in Ht |- *; lia.
Qed.

Lemma task_ok_grows (s : Blockchain) (b : Block) (t : Task) :
  task_ok s t ->
  task_ok (mkBlockchain (chain s ++ [b]) (chain_height s + 1)) t.
Proof.
  destruct t as [call | i valid errorLog block now' | errorLog block now' | r];
    cbn; auto.
  - intros (Hi & H). split; [lia | exact H].
  - intros (b' & Hr & Hin). exists b'. split; [exact Hr |].
    apply in_or_app. now left.
Qed.

(** On a consistent chain without defect, slot [i] and the slot before
    it are filled for every [i] from 1 to the cached height, and the block
    in slot [i] passes both tests of the validator. *)
Lemma lookup_linked (s : Blockchain) (i : Z) :
  consistent s ->
  linked (chain s) ->
  1 <= i <= chain_height s ->
  exists p b,
    JS.index (chain s) (i - 1) = Some p /\
    JS.index (chain s) i = Some b /\
    validate b = true /\
    previousBlockHash b = hash p.
Proof.
  unfold consistent. intros Hcons Hlinked Hi.
  destruct (nth_error (chain s) (Z.to_nat i)) as [b |] eqn:Hb.
  2: { apply nth_error_None in Hb. lia. }
  destruct (nth_error (chain s) (Z.to_nat (i - 1))) as [p |] eqn:Hp.
  2: { apply nth_error_None in Hp. lia. }
  exists p, b.
  replace (Z.to_nat i) with (S (Z.to_nat (i - 1))) in Hb by lia.
  destruct (linked_nth _ _ _ _ Hlinked Hp Hb) as [Hv Hl].
  replace (S (Z.to_nat (i - 1))) with (Z.to_nat i) in Hb by lia.
  repeat split; auto.
  - rewrite <- (Z2Nat.id (i - 1)) by lia. now rewrite index_nat.
  - rewrite <- (Z2Nat.id i) by lia. now rewrite index_nat.
Qed.

(** The loop test of the validator on a chain without defect. *)
Lemma loop_test_ok (s : Blockchain) (i : Z) (block : Block) (now' : Z) :
  consistent s ->
  linked (chain s) ->
  1 <= i ->
  just_built block ->
  exists t,
    loop_test i [] block now' s = (Return t, s) /\
    task_ok s t /\
    is_finished t = false /\
    (forall top,
        chain_height s <= top -> i - 1 <= top -> work top t <= top - i + 2).
Proof.
  intros Hcons Hlinked Hi Hnone. unfold loop_test, bind, this_height.
  destruct (Z.leb_spec i (chain_height s)) as [Hle | Hgt].
  - destruct (lookup_linked s i Hcons Hlinked (conj Hi Hle))
      as (p & b & _ & Hb & Hv & _).
    rewrite chain_at_eq, Hb. unfold ret. rewrite Hv.
    eexists. split; [reflexivity |]. cbn.
    split; [| split; [reflexivity | intros top Htop Hi'; lia]].
    split; [lia | auto].
  - unfold ret. eexists. split; [reflexivity |]. cbn.
    split; [auto | split; [reflexivity | intros top Htop Hi'; lia]].
Qed.

(** A task that is not finished either moves to its next stop without
    writing, or is at its last stop and appends its block. *)
Lemma resume_ok (s : Blockchain) (t : Task) (top : Z) :
  consistent s ->
  linked (chain s) ->
  task_ok s t ->
  is_finished t = false ->
  chain_height s <= top ->
  0 <= top ->
  (exists t',
      resume t s = (Return t', s) /\
      task_ok s t' /\
      is_finished t' = false /\
      work top t' + 1 <= work top t) \/
  (exists errorLog block now',
      t = Validated errorLog block now' /\
      just_built block /\
      resume t s =
      (Return (Finished (Return (next_block now' (chain s) block))),
       mkBlockchain (chain s ++ [next_block now' (chain s) block])
         (chain_height s + 1))).
Proof.
  intros Hcons Hlinked Hok Hrun Htop Hpos.
  destruct t as [call | i valid errorLog block now' | errorLog block now' | r];
    [| | | discriminate].
  - left. destruct Hok as [Hfresh Hverified].
    cbn [resume]. unfold start. rewrite Hfresh, Hverified.
    destruct (loop_test_ok s 1
                (new_Block (StarData (sub_address call) (sub_star call)))
                (sub_now' call) Hcons Hlinked)
      as (t' & Hstep & Hok' & Hrun' & Hwork);
      [lia | eexists; reflexivity |].
    exists t'. repeat split; auto.
    specialize (Hwork top Htop). cbn [work]. lia.
  - left. destruct Hok as (Hi & -> & -> & Hnone).
    destruct (lookup_linked s i Hcons Hlinked Hi)
      as (p & b & Hp & Hb & Hv & Hl).
    cbn [resume]. unfold bind at 1. unfold after_validate, bind.
    rewrite !chain_at_eq, Hb, Hp. unfold ret. cbn [negb].
    rewrite Hl, same_hash_refl. cbn [negb].
    destruct (loop_test_ok s (i + 1) block now' Hcons Hlinked)
      as (t' & Hstep & Hok' & Hrun' & Hwork); [lia | exact Hnone |].
    exists t'. repeat split; auto.
    specialize (Hwork top Htop). cbn [work]. lia.
  - right. destruct Hok as (-> & Hnone).
    exists [], block, now'. repeat split; auto.
    cbn [resume List.length Nat.ltb Nat.leb]. unfold bind.
    now rewrite (seal_and_push_eq now' block s Hcons).
Qed.

Lemma in_flight_height (s0 : Blockchain) (calls steps : nat) (c : Config) :
  consistent s0 ->
  in_flight s0 calls steps c ->
  chain_height (shared c)
  = chain_height s0 + Z.of_nat (finished_count (tasks c)) /\
  chain_height (shared c) <= chain_height s0 + Z.of_nat calls.
Proof.
  unfold consistent.
  intros H0 (Hcons & _ & (new & Hchain & _ & _ & Hlen) & Hn & _).
  unfold consistent in Hcons.
  pose proof (finished_count_le (tasks c)) as Hle.
  rewrite Hcons, Hchain, length_app, Hlen, H0. lia.
Qed.

(** Every step keeps the configuration in flight and uses up work. *)
Lemma step_in_flight (s0 : Blockchain) (calls steps k : nat)
    (c c' : Config) :
  consistent s0 ->
  in_flight s0 calls steps c ->
  step k c = Some c' ->
  in_flight s0 calls (S steps) c'.
Proof.
  intros H0 Hinv Hstep.
  destruct (in_flight_height s0 calls steps c H0 Hinv) as [Hheight Htop].
  destruct Hinv
    as (Hcons & Hlinked & (new & Hchain & Hheights & Hsealed & Hlen)
        & Hn & Hok & Hwork).
  unfold step in Hstep.
  destruct (nth_error (tasks c) k) as [t |] eqn:Hk; [| discriminate].
  destruct (is_finished t) eqn:Hrun; [discriminate |].
  assert (Hokt : task_ok (shared c) t).
  { rewrite Forall_forall in Hok. apply Hok.
    eapply nth_error_In; eassumption. }
  assert (Hcalls : (1 <= calls)%nat).
  { rewrite <- Hn.
    assert (k < List.length (tasks c))%nat
      by (apply nth_error_Some; congruence).
    lia. }
  assert (Hpos : 0 <= chain_height s0 + Z.of_nat calls)
    by (unfold consistent in H0; lia).
  destruct (resume_ok (shared c) t (chain_height s0 + Z.of_nat calls)
              Hcons Hlinked Hokt Hrun Htop Hpos)
    as [(t' & Hres & Hok' & Hrun' & Hless)
       | (errorLog & block & now' & -> & Hnew & Hres)];
    rewrite Hres in Hstep; inversion Hstep; subst c'; clear Hstep;
    unfold in_flight; cbn [shared tasks].
  - split; [exact Hcons |]. split; [exact Hlinked |].
    split.
    { exists new. rewrite (replace_nth_finished k t t' _ Hk Hrun), Hrun'.
      repeat split; auto. lia. }
    split; [now rewrite replace_nth_length |].
    split; [now apply replace_nth_Forall |].
    rewrite (replace_nth_work _ k t t' _ Hk). lia.
  - assert (Hnone : hash block = None)
      by (destruct Hnew as [data ->]; reflexivity).
    set (nb := next_block now' (chain (shared c)) block).
    split; [now apply consistent_push |].
    split.
    { apply (linked_snoc _ _ block Hlinked). intros Hne. split.
      - now apply next_block_validate.
      - now apply next_block_previous. }
    split.
    { exists (new ++ [nb])%list.
      rewrite (replace_nth_finished k _ (Finished (Return nb)) _ Hk Hrun).
      cbn [is_finished]. split; [| split; [| split]].
      - now rewrite Hchain, <- app_assoc.
      - apply heights_from_snoc; [exact Hheights |].
        unfold nb. rewrite next_block_height, Hchain, length_app.
        unfold consistent in H0. lia.
      - apply Forall_app. split; [exact Hsealed |].
        constructor; [| constructor]. now apply next_block_hash.
      - rewrite length_app, Hlen. cbn [List.length]. lia. }
    split; [now rewrite replace_nth_length |].
    split.
    { apply replace_nth_Forall.
      - eapply Forall_impl; [| exact Hok].
        intros t. apply task_ok_grows.
      - cbn. exists nb. split; [reflexivity |].
        apply in_or_app. right. now left. }
    rewrite (replace_nth_work _ k _ (Finished (Return nb)) _ Hk).
    cbn [work]. lia.
Qed.

Lemma run_in_flight (s0 : Blockchain) (calls : nat) (schedule : list nat)
    (steps : nat) (c c' : Config) :
  consistent s0 ->
  in_flight s0 calls steps c ->
  run schedule c = Some c' ->
  in_flight s0 calls (steps + List.length schedule) c'.
Proof.
  intros H0. revert steps c.
  induction schedule as [| k rest IH]; intros steps c Hinv Hrun.
  - cbn in Hrun. inversion Hrun; subst. now rewrite Nat.add_0_r.
  - cbn [run] in Hrun. destruct (step k c) as [c1 |] eqn:Hstep;
      [| discriminate].
    cbn [List.length]. rewrite Nat.add_succ_r, <- Nat.add_succ_l.
    apply (IH (S steps) c1); [| exact Hrun].
    eapply step_in_flight; eassumption.
Qed.

(** The chain of calls in flight goes through the states of [built] and
    no others: what holds of chains built one append at a time holds of
    it. *)
Lemma run_built (s0 : Blockchain) (calls : nat) (schedule : list nat)
    (steps n : nat) (c c' : Config) :
  consistent s0 ->
  in_flight s0 calls steps c ->
  built n (shared c) ->
  run schedule c = Some c' ->
  exists n', built n' (shared c').
Proof.
  intros H0. revert steps n c.
  induction schedule as [| k rest IH]; intros steps n c Hinv Hbuilt Hrun.
  - cbn in Hrun. inversion Hrun; subst. now exists n.
  - cbn [run] in Hrun. destruct (step k c) as [c1 |] eqn:Hstep;
      [| discriminate].
    pose proof (step_in_flight s0 calls steps k c c1 H0 Hinv Hstep) as Hinv1.
    destruct (in_flight_height s0 calls steps c H0 Hinv) as [_ Htop].
    destruct Hinv as (Hcons & Hlinked & _ & Hn & Hok & _).
    unfold step in Hstep.
    destruct (nth_error (tasks c) k) as [t |] eqn:Hk; [| discriminate].
    destruct (is_finished t) eqn:Hgo; [discriminate |].
    assert (Hokt : task_ok (shared c) t).
    { rewrite Forall_forall in Hok. apply Hok.
      eapply nth_error_In; eassumption. }
    assert (Hpos : 0 <= chain_height s0 + Z.of_nat calls).
    { assert (k < List.length (tasks c))%nat
        by (apply nth_error_Some; congruence).
      unfold consistent in H0. lia. }
    destruct (resume_ok (shared c) t (chain_height s0 + Z.of_nat calls)
                Hcons Hlinked Hokt Hgo Htop Hpos)
      as [(t' & Hres & _) | (errorLog & block & now' & -> & [data ->] & Hres)];
      rewrite Hres in Hstep; inversion Hstep; subst c1; clear Hstep.
    + apply (IH (S steps) n _ Hinv1 Hbuilt Hrun).
    + apply (IH (S steps) (S n) _ Hinv1); [| exact Hrun].
      cbn [shared].
      apply (built_append n (shared c) data now'
               (next_block now' (chain (shared c)) (new_Block data))).
      * exact Hbuilt.
      * rewrite (addBlock_eq _ _ _ Hcons), (linked_no_error _ Hlinked).
        reflexivity.
Qed.

Lemma fresh_work (top : Z) (calls : list Submission) :
  total_work top (map Fresh calls)
  = Z.of_nat (List.length calls) * (top + 2).
Proof.
  induction calls as [| call rest IH]; [reflexivity |].
  cbn [map total_work work List.length]. rewrite IH. lia.
Qed.

Lemma fresh_finished (calls : list Submission) :
  finished_count (map Fresh calls) = 0%nat.
Proof. induction calls; [reflexivity | exact IHcalls]. Qed.

Lemma fresh_in_flight (s0 : Blockchain) (calls : list Submission) :
  consistent s0 ->
  linked (chain s0) ->
  Forall valid_submission calls ->
  in_flight s0 (List.length calls) 0 (mkConfig s0 (map Fresh calls)).
Proof.
  intros H0 Hlinked Hvalid. unfold in_flight. cbn [shared tasks].
  split; [exact H0 |]. split; [exact Hlinked |].
  split.
  { exists []. rewrite app_nil_r, fresh_finished.
    repeat split; constructor. }
  split; [apply length_map |].
  split.
  { apply Forall_map. eapply Forall_impl; [| exact Hvalid]. now intros. }
  rewrite fresh_work. lia.
Qed.

Lemma calls_in_flight_built (n : nat) (s0 : Blockchain)
    (calls : list Submission) (schedule : list nat) (c : Config) :
  built n s0 ->
  Forall valid_submission calls ->
  run schedule (mkConfig s0 (map Fresh calls)) = Some c ->
  exists n', built n' (shared c).
Proof.
  intros Hbuilt Hvalid Hrun.
  destruct (built_invariant n s0 Hbuilt) as (H0 & _ & Hlinked & _).
  exact (run_built s0 (List.length calls) schedule 0 n _ c H0
           (fresh_in_flight s0 calls H0 Hlinked Hvalid) Hbuilt Hrun).
Qed.

Lemma unfinished_steps (c : Config) :
  all_finished c = false -> exists k c', step k c = Some c'.
Proof.
  unfold all_finished, step. destruct c as [s ts]. cbn [tasks shared].
  induction ts as [| t rest IH]; [discriminate |].
  cbn [forallb]. destruct (is_finished t) eqn:Ht.
  - cbn [andb]. intros Hrest.
    destruct (IH Hrest) as (k & c' & Hk). exists (S k).
    cbn [nth_error].
    destruct (nth_error rest k) as [t' |]; [| discriminate].
    destruct (is_finished t'); [discriminate |].
    destruct (resume t' s) as [[t'' | e] s']; eexists; reflexivity.
  - intros _. exists 0%nat. cbn [nth_error]. rewrite Ht.
    destruct (resume t s) as [[t'' | e] s']; eexists; reflexivity.
Qed.

Lemma all_finished_count (ts : list Task) :
  forallb is_finished ts = true -> finished_count ts = List.length ts.
Proof.
  unfold finished_count. induction ts as [| t rest IH]; [reflexivity |].
  cbn [forallb filter]. destruct (is_finished t); [| discriminate].
  cbn [andb List.length]. intros H. now rewrite (IH H).
Qed.

(** C9, as the code has it: no lock joins the validation of a call to its
    append, and other calls may append in between; only the append itself
    (lines 72-89) runs without a stop.  Even so, when valid submissions
    are fired together on a consistent chain without defect, then however
    their segments are ordered: the run cannot go on beyond a fixed number
    of steps, a call that is not finished can always be resumed, and once
    all are finished every call has returned a block, the chain is the
    initial one followed by one new sealed block per call, their heights
    following on from the initial height one by one, and the validator
    finds no error. *)
Theorem concurrent_submissions_all_append (s0 : Blockchain)
    (calls : list Submission) (schedule : list nat) (c : Config) :
  consistent s0 ->
  linked (chain s0) ->
  Forall valid_submission calls ->
  run schedule (mkConfig s0 (map Fresh calls)) = Some c ->
  Z.of_nat (List.length schedule)
  <= Z.of_nat (List.length calls)
     * (chain_height s0 + Z.of_nat (List.length calls) + 2) /\
  (all_finished c = false -> exists k c', step k c = Some c') /\
  (all_finished c = true ->
   exists new,
     chain (shared c) = (chain s0 ++ new)%list /\
     List.length new = List.length calls /\
     heights_from (chain_height s0 + 1) new /\
     Forall sealed new /\
     chain_height (shared c)
     = chain_height s0 + Z.of_nat (List.length calls) /\
     validateChain (shared c) = (Return [], shared c) /\
     Forall (fun t => exists b, t = Finished (Return b) /\
                                In b (chain (shared c))) (tasks c)).
Proof.
  intros H0 Hlinked0 Hvalid Hrun.
  pose proof (run_in_flight s0 (List.length calls) schedule 0 _ c H0
                (fresh_in_flight s0 calls H0 Hlinked0 Hvalid) Hrun) as Hinv.
  destruct (in_flight_height s0 _ _ c H0 Hinv) as [Hheight Htop].
  destruct Hinv
    as (Hcons & Hlinked & (new & Hchain & Hheights & Hsealed & Hlen)
        & Hn & Hok & Hwork).
  split; [| split].
  - destruct calls as [| call rest].
    + cbn in Hwork |- *. destruct (tasks c); [| discriminate].
      cbn in Hwork. lia.
    + assert (0 <= total_work
                     (chain_height s0 + Z.of_nat (List.length (call :: rest)))
                     (tasks c)).
      { apply (total_work_nonneg _ (shared c)); auto.
        unfold consistent in H0. cbn [List.length]. lia. }
      cbn [Nat.add] in Hwork. lia.
  - apply unfinished_steps.
  - intros Hall. unfold all_finished in Hall.
    rewrite (all_finished_count _ Hall), Hn in Hlen, Hheight.
    exists new. repeat split; auto.
    + rewrite (validateChain_eq _ Hcons). now rewrite (linked_no_error _ Hlinked).
    + rewrite forallb_forall in Hall. rewrite Forall_forall in Hok |- *.
      intros t Ht. specialize (Hok t Ht). specialize (Hall t Ht).
      destruct t; try discriminate.
      destruct Hok as (b & -> & Hin). now exists b.
Qed.

(** ** A call on its own *)

Lemma after_validate_pure (i : Z) (valid : bool) (acc : list Error)
    (s : Blockchain) :
  (exists acc', after_validate i valid acc s = (Return acc', s)) \/
  after_validate i valid acc s = (Throw TypeError, s).
Proof.
  unfold after_validate, bind. rewrite !chain_at_eq.
  destruct (JS.index (chain s) i) as [b |]; [| now right].
  destruct (JS.index (chain s) (i - 1)) as [p |]; [| now right].
  left. eexists. reflexivity.
Qed.

Lemma alone_loop (now' : Z) (block : Block) (s : Blockchain) (n : nat)
    (i : Z) (acc : list Error) :
  Z.to_nat (chain_height s - i + 1) = n ->
  match loop_test i acc block now' s with
  | (Return t, s1) => alone (n + 1) t s1
  | (Throw e, s1) => Some (Throw e, s1)
  end =
  Some match for_each (count_from i n) validateBlockAt acc s with
       | (Return errorLog, s1) =>
           if (0 <? List.length errorLog)%nat then (Throw ChainInvalid, s1)
           else seal_and_push now' block s1
       | (Throw e, s1) => (Throw e, s1)
       end.
Proof.
  revert i acc. induction n as [| m IH]; intros i acc Hn.
  - unfold loop_test, bind, this_height.
    destruct (Z.leb_spec i (chain_height s)) as [Hle | Hgt]; [lia |].
    unfold ret. cbn [Nat.add alone resume count_from for_each].
    destruct acc as [| e0 acc0]; [| reflexivity].
    cbn [List.length Nat.ltb Nat.leb]. unfold bind, ret.
    destruct (seal_and_push now' block s) as [[b | e] s1]; reflexivity.
  - unfold loop_test, bind, this_height.
    destruct (Z.leb_spec i (chain_height s)) as [Hle | Hgt]; [| lia].
    cbn [count_from for_each]. unfold validateBlockAt, bind.
    rewrite !chain_at_eq.
    destruct (JS.index (chain s) i) as [b |]; [| reflexivity].
    unfold ret. cbn [Nat.add alone resume]. unfold bind.
    destruct (after_validate_pure i (validate b) acc s) as [[acc' ->] | ->];
      [| reflexivity].
    replace (S m) with (m + 1)%nat by lia.
    apply IH. lia.
Qed.

(** A call that runs with no other call in flight does what [submitStar]
    does: the segments put end to end are the method. *)
Lemma alone_is_submitStar (call : Submission) (s : Blockchain) :
  alone (Z.to_nat (chain_height s) + 2) (Fresh call) s
  = Some (submitStar (sub_address call) (sub_message call)
            (sub_signature call) (sub_star call) (sub_now call)
            (sub_now' call) s).
Proof.
  rewrite submitStar_eq.
  replace (Z.to_nat (chain_height s) + 2)%nat
    with (S (Z.to_nat (chain_height s) + 1)) by lia.
  cbn [alone resume]. unfold start.
  destruct (JS.gt (elapsed (sub_message call) (sub_now call)) (JS.Num 300));
    [reflexivity |].
  destruct (verify (sub_message call) (sub_address call)
              (sub_signature call)); try reflexivity.
  rewrite (alone_loop (sub_now' call) _ s (Z.to_nat (chain_height s)) 1 [])
    by (f_equal; lia).
  unfold _addBlock, bind at 1, validateChain, bind, this_height, range.
  replace (Z.to_nat (chain_height s - 1 + 1))
    with (Z.to_nat (chain_height s)) by (f_equal; lia).
  destruct (for_each (count_from 1 (Z.to_nat (chain_height s)))
              validateBlockAt [] s) as [[errorLog | e] s1]; [| reflexivity].
  destruct (0 <? List.length errorLog)%nat; reflexivity.
Qed.

End Properties.

(** * The properties on the concrete instance *)

Module DemoFacts.

Import Demo.

Lemma genesis_chain_built : built (E := externals) 1 genesis_chain.
Proof.
  apply (built_append (E := externals) 0 empty_chain
           (GenesisData "Genesis Block") t0 genesis_block genesis_chain).
  - apply built_new.
  - vm_compute. reflexivity.
Qed.

Lemma star_chain_built : built (E := externals) 2 star_chain.
Proof.
  apply (built_append (E := externals) 1 genesis_chain
           (StarData "alice" "star one") (t0 + 10000) first_star star_chain).
  - exact genesis_chain_built.
  - vm_compute. reflexivity.
Qed.

Lemma star_chain_consistent : consistent star_chain.
Proof. reflexivity. Qed.

Lemma tampered_chain_consistent : consistent tampered_chain.
Proof. reflexivity. Qed.

Lemma registry_consistent : consistent registry.
Proof. reflexivity. Qed.

Lemma genesis_chain_linked : linked (E := externals) (chain genesis_chain).
Proof. exact I. Qed.

Lemma calls_valid :
  Forall (valid_submission (E := externals)) [call_one; call_two].
Proof. repeat constructor. Qed.

(** The freshness window on the clock: 299 and 300 seconds after the
    challenge the submission goes through, 301 seconds after it is
    refused, and so it is at any later time. *)
Example fresh_at_299 :
  elapsed (challenge "alice") (t0 + 299000) = JS.Num 299 /\
  submitStar (E := externals) "alice" (challenge "alice")
    (sign "alice" (challenge "alice")) "star one" (t0 + 299000)
    (t0 + 299000) genesis_chain
  = (Return (next_block (E := externals) (t0 + 299000) (chain genesis_chain)
               (new_Block (E := externals) (StarData "alice" "star one"))),
     mkBlockchain
       (chain genesis_chain
        ++ [next_block (E := externals) (t0 + 299000) (chain genesis_chain)
              (new_Block (E := externals) (StarData "alice" "star one"))])
       1).
Proof. split; vm_compute; reflexivity. Qed.

Example fresh_at_300 :
  elapsed (challenge "alice") (t0 + 300000) = JS.Num 300 /\
  exists b s',
    submitStar (E := externals) "alice" (challenge "alice")
      (sign "alice" (challenge "alice")) "star one" (t0 + 300000)
      (t0 + 300000) genesis_chain = (Return b, s').
Proof. split; [| eexists; eexists]; vm_compute; reflexivity. Qed.

Example expired_at_301 :
  elapsed (challenge "alice") (t0 + 301000) = JS.Num 301 /\
  submitStar (E := externals) "alice" (challenge "alice")
    (sign "alice" (challenge "alice")) "star one" (t0 + 301000)
    (t0 + 301000) genesis_chain
  = (Throw MessageTimedOut, genesis_chain).
Proof. split; vm_compute; reflexivity. Qed.

Example future_timestamp_passes :
  elapsed (challenge "alice") (t0 - 5000) = JS.Num (-5) /\
  exists b s',
    submitStar (E := externals) "alice" (challenge "alice")
      (sign "alice" (challenge "alice")) "star one" (t0 - 5000)
      (t0 - 5000) genesis_chain = (Return b, s').
Proof. split; [| eexists; eexists]; vm_compute; reflexivity. Qed.

(** A wrong signature is refused, and so is one the library cannot
    read. *)
Example wrong_signature_refused :
  submitStar (E := externals) "alice" (challenge "alice")
    (sign "bob" (challenge "alice")) "star one" (t0 + 10000) (t0 + 10000)
    genesis_chain
  = (Throw CouldntVerify, genesis_chain) /\
  submitStar (E := externals) "alice" (challenge "alice") ""
    "star one" (t0 + 10000) (t0 + 10000) genesis_chain
  = (Throw (LibraryError "Invalid signature length"), genesis_chain).
Proof. split; vm_compute; reflexivity. Qed.

(** The validator on the damaged chain: the rewritten block is reported
    twice, as corrupt and as badly linked, and the block above it, whose
    own fields are intact, is not reported. *)
Example tampered_chain_errors :
  exists h,
    hash first_star = Some h /\
    validateChain (E := externals) tampered_chain
    = (Return [BlockInvalid (Some h); InvalidPreviousHash (Some h)],
       tampered_chain).
Proof. eexists. split; vm_compute; reflexivity. Qed.

(** A damaged chain takes no more blocks, and the refused call leaves it
    as it is. *)
Example tampered_chain_refuses :
  submit "alice" "star three" tampered_chain
  = (Throw ChainInvalid, tampered_chain).
Proof. vm_compute. reflexivity. Qed.

(** Three stars of [alice] among five: hers come back, in the order they
    were appended. *)
Example stars_of_alice :
  getStarsByWalletAddress (E := externals) "alice" registry
  = (Return [StarData "alice" "a1"; StarData "alice" "a2";
             StarData "alice" "a3"], registry) /\
  getStarsByWalletAddress (E := externals) "bob" registry
  = (Return [StarData "bob" "b1"; StarData "bob" "b2"], registry).
Proof. split; vm_compute; reflexivity. Qed.

(** The chain after the genesis block and one star satisfies C1. *)
Lemma chain_invariant_witness :
  built (E := externals) 2 star_chain /\ chain_height star_chain = 1.
Proof.
  split.
  - exact star_chain_built.
  - exact (proj1 (chain_invariant 2 star_chain star_chain_built)).
Defined.

(** The star block of that chain satisfies C2. *)
Lemma appended_block_hash_is_digest_witness :
  built (E := externals) 2 star_chain /\
  In first_star (chain star_chain) /\
  validate (E := externals) first_star = true.
Proof.
  split; [exact star_chain_built |].
  split; [right; left; reflexivity |].
  exact (proj2 (proj2 (proj2
           (appended_block_hash_is_digest 2 star_chain first_star
              star_chain_built (or_intror (or_introl eq_refl)))))).
Defined.

(** C3 on the damaged chain. *)
Lemma validateChain_reports_every_defect_witness :
  consistent tampered_chain /\
  validateChain (E := externals) tampered_chain
  = (Return (expected_errors (E := externals) (chain tampered_chain)),
     tampered_chain).
Proof.
  split.
  - exact tampered_chain_consistent.
  - exact (proj1 (validateChain_reports_every_defect tampered_chain
                    tampered_chain_consistent)).
Defined.

(** C4 on a submission that comes 301 seconds after its challenge. *)
Lemma submitStar_failure_changes_nothing_witness :
  exists e s',
    submitStar (E := externals) "alice" (challenge "alice")
      (sign "alice" (challenge "alice")) "star one" (t0 + 301000)
      (t0 + 301000) star_chain = (Throw e, s') /\
    chain s' = chain star_chain /\
    chain_height s' = chain_height star_chain /\
    s' = star_chain.
Proof.
  exists MessageTimedOut, star_chain. split; [reflexivity |].
  exact (proj1
           (submitStar_failure_changes_nothing (E := externals) "alice"
              (challenge "alice") (sign "alice" (challenge "alice"))
              "star one" (t0 + 301000) (t0 + 301000) star_chain star_chain
              MessageTimedOut eq_refl)
           (or_introl eq_refl)).
Defined.

(** C5 on a submission that comes 299 seconds after its challenge. *)
Lemma challenge_expires_above_300_seconds_witness :
  elapsed (challenge "alice") (t0 + 299000) = JS.Num 299 /\
  fst (submitStar (E := externals) "alice" (challenge "alice")
         (sign "alice" (challenge "alice")) "star one" (t0 + 299000)
         (t0 + 299000) genesis_chain)
  <> Throw MessageTimedOut.
Proof.
  split; [reflexivity |].
  exact (proj1 (proj2
           (challenge_expires_above_300_seconds (E := externals) "alice"
              (challenge "alice") (sign "alice" (challenge "alice"))
              "star one" (t0 + 299000) (t0 + 299000) genesis_chain))
           eq_refl).
Defined.

(** Against C6: a message with no second field, signed by its sender, is
    not rejected as malformed; the call appends a block and returns it.
    The same holds of a message whose second field is a word. *)
Lemma message_without_timestamp_is_accepted :
  messageTime "hello" = JS.NaN /\
  messageTime "alice:soon:starRegistry" = JS.NaN /\
  (exists b,
      submitStar (E := externals) "alice" "hello" (sign "alice" "hello")
        "star one" t0 t0 genesis_chain
      = (Return b, mkBlockchain (chain genesis_chain ++ [b]) 1)) /\
  (exists b,
      submitStar (E := externals) "alice" "alice:soon:starRegistry"
        (sign "alice" "alice:soon:starRegistry") "star one" t0 t0
        genesis_chain
      = (Return b, mkBlockchain (chain genesis_chain ++ [b]) 1)).
Proof.
  split; [reflexivity |]. split; [reflexivity |].
  split; eexists; vm_compute; reflexivity.
Qed.

(** C6 as the code has it, on the message [hello] signed by someone
    else. *)
Lemma message_without_timestamp_reaches_verification_witness :
  messageTime "hello" = JS.NaN /\
  submitStar (E := externals) "alice" "hello" (sign "bob" "hello")
    "star one" t0 t0 genesis_chain
  = (Throw CouldntVerify, genesis_chain).
Proof.
  split; [reflexivity |].
  exact (message_without_timestamp_reaches_verification (E := externals)
           "alice" "hello" (sign "bob" "hello") "star one" t0 t0
           genesis_chain eq_refl).
Defined.

(** C10 on the message [hello]. *)
Lemma timestampless_message_decided_by_signature_witness :
  built (E := externals) 2 star_chain /\
  messageTime "hello" = JS.NaN /\
  fst (submitStar (E := externals) "alice" "hello" (sign "alice" "hello")
         "star two" t0 t0 star_chain)
  <> Throw MessageTimedOut.
Proof.
  split; [exact star_chain_built |]. split; [reflexivity |].
  exact (proj1
           (timestampless_message_decided_by_signature (E := externals) 2
              "alice" "hello" (sign "alice" "hello") "star two" t0 t0
              star_chain star_chain_built eq_refl)).
Defined.

(** C7 at [t0]. *)
Lemma genesis_block_created_once_witness :
  new_Blockchain (E := externals) t0
  = (Return tt, mkBlockchain [genesis_block] 0).
Proof. exact (proj1 (genesis_block_created_once (E := externals) t0)). Defined.

(** C8 on the registry of five stars. *)
Lemma stars_of_wallet_are_filtered_in_order_witness :
  consistent registry /\
  forall stars p,
    fst (getStarsByWalletAddress (E := externals) "alice" registry)
    = Return stars ->
    In p stars -> owner_of p = Some "alice".
Proof.
  split.
  - exact registry_consistent.
  - exact (proj2 (stars_of_wallet_are_filtered_in_order (E := externals)
                    "alice" registry registry_consistent)).
Defined.

Lemma fifo_runs : run fifo two_calls = Some after_fifo.
Proof. vm_compute. reflexivity. Qed.

(** Against C9: with two calls in flight on the genesis chain and the
    queue order, the second call validates a chain of one block and appends
    to a chain of two, the first call having appended in between. *)
Lemma validation_and_append_are_separable :
  run fifo two_calls = Some after_fifo /\
  seen_by 1 fifo two_calls = [chain genesis_chain; chain star_chain] /\
  ~ atomic_unit 1 fifo two_calls.
Proof.
  assert (Hseen : seen_by 1 fifo two_calls
                  = [chain genesis_chain; chain star_chain])
    by (vm_compute; reflexivity).
  split; [exact fifo_runs |]. split; [exact Hseen |].
  intros Hatomic.
  specialize (Hatomic (chain genesis_chain) (chain star_chain)).
  rewrite Hseen in Hatomic.
  assert (Heq : chain genesis_chain = chain star_chain)
    by (apply Hatomic; [left | right; left]; reflexivity).
  apply (f_equal (@List.length Block)) in Heq. vm_compute in Heq.
  discriminate.
Qed.

(** C9 as the code has it, on those two calls in that order. *)
Lemma concurrent_submissions_all_append_witness :
  run fifo two_calls = Some after_fifo /\
  all_finished after_fifo = true /\
  exists new,
    chain (shared after_fifo) = (chain genesis_chain ++ new)%list /\
    List.length new = 2%nat /\
    heights_from 1 new /\
    Forall (sealed (E := externals)) new /\
    chain_height (shared after_fifo) = 2 /\
    validateChain (E := externals) (shared after_fifo)
    = (Return [], shared after_fifo) /\
    Forall (fun t => exists b, t = Finished (Return b) /\
                               In b (chain (shared after_fifo)))
      (tasks after_fifo).
Proof.
  split; [exact fifo_runs |]. split; [reflexivity |].
  exact (proj2 (proj2
           (concurrent_submissions_all_append (E := externals)
              genesis_chain [call_one; call_two] fifo after_fifo
              eq_refl genesis_chain_linked calls_valid fifo_runs))
           eq_refl).
Defined.

End DemoFacts.


(** * The rest of the class *)

Section Lookups.

Context {E : Externals}.

(** ** Who writes *)




Lemma collectStarAt_pure (address : string) (i : Z)
    (acc : list (Payload Star)) (s : Blockchain) :
  snd (collectStarAt address i acc s) = s.
Proof.
  unfold collectStarAt, bind. rewrite chain_at_eq.
  destruct (JS.index (chain s) i) as [b |]; [| reflexivity].
  unfold getBData, ret, throw.
  destruct (decode (body b)) as [p |]; [| reflexivity].
  now destruct (same_hash (owner_of p) (Some address)).
Qed.

Lemma collect_loop_pure (address : string) (idx : list Z)
    (acc : list (Payload Star)) (s : Blockchain) :
  snd (for_each idx (collectStarAt address) acc s) = s.
Proof.
  revert acc. induction idx as [| i rest IH]; intros acc; [reflexivity |].
  cbn [for_each]. unfold bind.
  pose proof (collectStarAt_pure address i acc s) as H.
  destruct (collectStarAt address i acc s) as [[acc' | e] s1];
    cbn [snd] in H; subst s1; [apply IH | reflexivity].
Qed.

(** X2: the five reading methods never write: in every state, and also
    when they throw, [getChainHeight], [getBlockByHash], [getBlockByHeight],
    [getStarsByWalletAddress] and [validateChain] leave the chain and the
    height as they found them. *)
Theorem readers_never_write (s : Blockchain) (h : option string) (k : Z)
    (address : string) :
  snd (getChainHeight s) = s /\
  snd (getBlockByHash h s) = s /\
  snd (getBlockByHeight k s) = s /\
  snd (getStarsByWalletAddress address s) = s /\
  snd (validateChain s) = s.
Proof.
  split; [reflexivity |]. split; [reflexivity |]. split; [reflexivity |].
  split.
  - unfold getStarsByWalletAddress, bind, this_height.
    apply collect_loop_pure.
  - destruct (validateChain_pure s) as [[errorLog ->] | ->]; reflexivity.
Qed.

(** ** Looking blocks up *)

Lemma find_height (c : list Block) (from h : Z) :
  heights_from from c ->
  find (fun block => height block =? h) c
  = if h <? from then None else nth_error c (Z.to_nat (h - from)).
Proof.
  revert from. induction c as [| x rest IH]; intros from Hh.
  - cbn. destruct (h <? from); [reflexivity |].
    now destruct (Z.to_nat (h - from)).
  - destruct Hh as [Hx Hrest]. cbn [find]. rewrite Hx.
    destruct (Z.eqb_spec from h) as [-> | Hne].
    + rewrite Z.ltb_irrefl, Z.sub_diag. reflexivity.
    + rewrite (IH (from + 1) Hrest).
      destruct (Z.ltb_spec h from) as [Hlt | Hge].
      * destruct (Z.ltb_spec h (from + 1)); [reflexivity | lia].
      * destruct (Z.ltb_spec h (from + 1)); [lia |].
        replace (Z.to_nat (h - from)) with (S (Z.to_nat (h - (from + 1))))
          by lia.
        reflexivity.
Qed.

Lemma getBlockByHeight_eq (n : nat) (s : Blockchain) (h : Z) :
  built n s ->
  getBlockByHeight h s = (Return (JS.index (chain s) h), s).
Proof.
  intros Hbuilt.
  destruct (built_invariant n s Hbuilt) as (_ & _ & _ & Hheights & _).
  unfold getBlockByHeight, bind, this_chain, ret, JS.index.
  rewrite (find_height _ 0 h Hheights), Z.sub_0_r. reflexivity.
Qed.

(** X3: on a chain built by appends, [getBlockByHeight] answers with the
    block stored at that index, whose [height] field is the height asked
    for, for every height from 0 to the height of the chain, and with
    [null] below 0 and above the height of the chain. *)
Theorem getBlockByHeight_finds_the_block (n : nat) (s : Blockchain) (h : Z) :
  built n s ->
  (0 <= h <= chain_height s ->
   exists b,
     getBlockByHeight h s = (Return (Some b), s) /\
     nth_error (chain s) (Z.to_nat h) = Some b /\
     height b = h) /\
  (h < 0 \/ chain_height s < h ->
   getBlockByHeight h s = (Return None, s)).
Proof.
  intros Hbuilt.
  destruct (built_invariant n s Hbuilt) as (Hcons & _ & _ & Hheights & _).
  unfold consistent in Hcons.
  rewrite (getBlockByHeight_eq n s h Hbuilt). unfold JS.index. split.
  - intros Hh. destruct (Z.ltb_spec h 0) as [Hneg | _]; [lia |].
    destruct (nth_error (chain s) (Z.to_nat h)) as [b |] eqn:Hb.
    + exists b. split; [reflexivity |]. split; [reflexivity |].
      rewrite (heights_from_nth _ 0 _ b Hheights Hb). lia.
    + apply nth_error_None in Hb. lia.
  - intros [Hneg | Hhigh].
    + destruct (Z.ltb_spec h 0); [reflexivity | lia].
    + destruct (Z.ltb_spec h 0); [reflexivity |].
      replace (nth_error (chain s) (Z.to_nat h)) with (@None Block);
        [reflexivity |].
      symmetry. apply nth_error_None. lia.
Qed.

Lemma find_snoc {A : Type} (f : A -> bool) (l : list A) (x : A) :
  find f (l ++ [x])
  = match find f l with
    | Some y => Some y
    | None => if f x then Some x else None
    end.
Proof.
  induction l as [| y rest IH]; [reflexivity |].
  cbn [app find]. destruct (f y); [reflexivity | exact IH].
Qed.

(** A successful [submitStar] on a chain built by appends, spelled out. *)
Lemma submitStar_returns (n : nat) (address message signature : string)
    (star : Star) (now now' : Z) (s s' : Blockchain) (b : Block) :
  built n s ->
  submitStar address message signature star now now' s = (Return b, s') ->
  JS.gt (elapsed message now) (JS.Num 300) = false /\
  verify message address signature = Verified /\
  b = next_block now' (chain s) (new_Block (StarData address star)) /\
  s' = mkBlockchain (chain s ++ [b]) (chain_height s + 1) /\
  built (S n) s'.
Proof.
  intros Hbuilt Hsub.
  assert (Hbuilt' : built (S n) s').
  { rewrite submitStar_eq in Hsub.
    destruct (JS.gt (elapsed message now) (JS.Num 300)); [discriminate |].
    destruct (verify message address signature); try discriminate.
    eapply built_append; eassumption. }
  destruct (built_invariant n s Hbuilt) as (Hcons & _ & Hlinked & _).
  rewrite submitStar_eq in Hsub.
  destruct (JS.gt (elapsed message now) (JS.Num 300)); [discriminate |].
  destruct (verify message address signature); try discriminate.
  rewrite (addBlock_eq _ _ s Hcons), (linked_no_error _ Hlinked) in Hsub.
  inversion Hsub; subst. auto.
Qed.

(** X4: a block returned by [submitStar] on a chain built by appends is
    found again: [getBlockByHeight] at its height returns that very block,
    and [getBlockByHash] at its hash returns the first block of the chain
    with that hash, which is that very block when no earlier block has the
    same hash. *)
Theorem submitted_block_is_found (n : nat)
    (address message signature : string) (star : Star) (now now' : Z)
    (s s' : Blockchain) (b : Block) :
  built n s ->
  submitStar address message signature star now now' s = (Return b, s') ->
  getBlockByHeight (height b) s' = (Return (Some b), s') /\
  (exists b',
      getBlockByHash (hash b) s' = (Return (Some b'), s') /\
      hash b' = hash b /\ In b' (chain s')) /\
  ((forall x, In x (chain s) -> hash x <> hash b) ->
   getBlockByHash (hash b) s' = (Return (Some b), s')).
Proof.
  intros Hbuilt Hsub.
  destruct (submitStar_returns n _ _ _ _ _ _ s s' b Hbuilt Hsub)
    as (_ & _ & Hb & Hs' & Hbuilt').
  destruct (built_invariant n s Hbuilt) as (Hcons & _).
  unfold consistent in Hcons.
  assert (Hheight : height b = Z.of_nat (List.length (chain s)))
    by (rewrite Hb; apply next_block_height).
  split; [| split].
  - rewrite (getBlockByHeight_eq (S n) s' _ Hbuilt'), Hheight, Hs'.
    cbn [chain]. now rewrite index_app_middle.
  - unfold getBlockByHash, bind, this_chain, ret. rewrite Hs'. cbn [chain].
    rewrite find_snoc, same_hash_refl.
    destruct (find (fun block => same_hash (hash block) (hash b)) (chain s))
      as [y |] eqn:Hfind.
    + apply find_some in Hfind. destruct Hfind as [Hin Hy].
      exists y. split; [reflexivity |]. split; [now apply same_hash_eq |].
      apply in_or_app. now left.
    + exists b. split; [reflexivity |]. split; [reflexivity |].
      apply in_or_app. right. now left.
  - intros Hfresh.
    unfold getBlockByHash, bind, this_chain, ret. rewrite Hs'. cbn [chain].
    rewrite find_snoc, same_hash_refl.
    destruct (find (fun block => same_hash (hash block) (hash b)) (chain s))
      as [y |] eqn:Hfind; [| reflexivity].
    apply find_some in Hfind. destruct Hfind as [Hin Hy].
    apply same_hash_eq in Hy. now destruct (Hfresh y Hin).
Qed.

(** X5: on a chain built by appends, [submitStar] returns a block exactly
    when the message is not older than 300 seconds and the signature
    verifies; the block it returns is the new last block of the chain, at
    the old height plus one, with the encoded [{ owner, data }] as body, the
    clock in seconds as time, the hash of the former last block as
    [previousBlockHash] and the digest of all that as hash; and
    [getChainHeight] then answers the old height plus one. *)
Theorem submitStar_success (n : nat) (address message signature : string)
    (star : Star) (now now' : Z) (s : Blockchain) :
  built n s ->
  ((exists b s',
       submitStar address message signature star now now' s = (Return b, s'))
   <->
   JS.gt (elapsed message now) (JS.Num 300) = false /\
   verify message address signature = Verified) /\
  (forall b s',
      submitStar address message signature star now now' s = (Return b, s') ->
      s' = mkBlockchain (chain s ++ [b]) (chain_height s + 1) /\
      height b = chain_height s + 1 /\
      body b = encode (StarData address star) /\
      time b = seconds_string now' /\
      (forall d, chain s <> [] -> previousBlockHash b = hash (last (chain s) d))
      /\
      hash b = Some (digest b) /\
      getChainHeight s' = (Return (chain_height s + 1), s')).
Proof.
  intros Hbuilt.
  destruct (built_invariant n s Hbuilt) as (Hcons & _ & Hlinked & _).
  split.
  - split.
    + intros (b & s' & Hsub).
      now destruct (submitStar_returns n _ _ _ _ _ _ s s' b Hbuilt Hsub)
        as (Hfresh & Hverified & _).
    + intros [Hfresh Hverified].
      rewrite submitStar_eq, Hfresh, Hverified,
        (addBlock_eq _ _ s Hcons), (linked_no_error _ Hlinked).
      eexists. eexists. reflexivity.
  - intros b s' Hsub.
    destruct (submitStar_returns n _ _ _ _ _ _ s s' b Hbuilt Hsub)
      as (_ & _ & Hb & Hs' & _).
    unfold consistent in Hcons.
    split; [exact Hs' |].
    split; [rewrite Hb, next_block_height; lia |].
    split; [rewrite Hb; apply next_block_body |].
    split; [rewrite Hb; apply next_block_time |].
    split; [intros d Hne; rewrite Hb; now apply next_block_previous |].
    split; [rewrite Hb; now apply next_block_hash |].
    rewrite Hs'. reflexivity.
Qed.

Lemma getBlockByHash_eq (h : option string) (s : Blockchain) :
  getBlockByHash h s
  = (Return (find (fun block => same_hash (hash block) h) (chain s)), s).
Proof. reflexivity. Qed.

(** X6: on a chain built by appends, [getBlockByHash] returns a block of
    the chain whose hash is the one asked for, or [null] when no block has
    it; every stored hash being a string, [null] is what a lookup of [null]
    returns. *)
Theorem getBlockByHash_finds_by_hash (n : nat) (s : Blockchain)
    (h : option string) :
  built n s ->
  (forall b,
      getBlockByHash h s = (Return (Some b), s) ->
      In b (chain s) /\ hash b = h /\ h = Some (digest b)) /\
  (getBlockByHash h s = (Return None, s) <->
   forall b, In b (chain s) -> hash b <> h) /\
  getBlockByHash None s = (Return None, s).
Proof.
  intros Hbuilt.
  destruct (built_invariant n s Hbuilt) as (_ & _ & _ & _ & Hsealed).
  rewrite Forall_forall in Hsealed. rewrite !getBlockByHash_eq.
  split; [| split].
  - intros b Hfind. inversion Hfind as [Hf]. apply find_some in Hf.
    destruct Hf as [Hin Hsame]. apply same_hash_eq in Hsame.
    split; [exact Hin |]. split; [exact Hsame |].
    rewrite <- Hsame. exact (Hsealed b Hin).
  - split.
    + intros Hfind b Hin Heq. inversion Hfind as [Hf].
      pose proof (find_none _ _ Hf b Hin) as Hno. cbn beta in Hno.
      rewrite Heq, same_hash_refl in Hno. discriminate.
    + intros Hnone.
      destruct (find (fun block => same_hash (hash block) h) (chain s))
        as [b |] eqn:Hf; [| reflexivity].
      apply find_some in Hf. destruct Hf as [Hin Hsame].
      apply same_hash_eq in Hsame. now destruct (Hnone b Hin).
  - destruct (find (fun block => same_hash (hash block) None) (chain s))
      as [b |] eqn:Hf; [| reflexivity].
    apply find_some in Hf. destruct Hf as [Hin Hsame].
    apply same_hash_eq in Hsame. rewrite (Hsealed b Hin) in Hsame.
    discriminate.
Qed.

(** ** Stars submitted and listed *)

Lemma decode_all_snoc (blocks : list Block) (b : Block) :
  decode_all (blocks ++ [b])
  = match decode_all blocks, decode (body b) with
    | Some payloads, Some p => Some (payloads ++ [p])%list
    | _, _ => None
    end.
Proof.
  induction blocks as [| x rest IH].
  - cbn. now destruct (decode (body b)).
  - cbn [app decode_all]. rewrite IH.
    destruct (decode (body x)) as [px |]; [| reflexivity].
    destruct (decode_all rest) as [payloads |]; [| reflexivity].
    now destruct (decode (body b)).
Qed.

Lemma owned_by_eq (address other : string) (star : Star) :
  owned_by other (StarData address star) = String.eqb address other.
Proof. reflexivity. Qed.

(** X7: a star submitted with success is listed from then on: when the
    payload codec reads back what it wrote, the stars of the submitting
    address after the call are its stars before the call followed by the
    new [{ owner, data }], and the list of every other address is what it
    was.  A star appended to an empty chain, which no genesis block heads,
    sits at height 0 and is never listed. *)
Theorem submitted_star_is_listed (n : nat)
    (address message signature : string) (star : Star) (now now' : Z)
    (s s' : Blockchain) (b : Block) :
  built n s ->
  submitStar address message signature star now now' s = (Return b, s') ->
  (chain s <> [] ->
   decode (encode (StarData address star)) = Some (StarData address star) ->
   (forall stars,
       getStarsByWalletAddress address s = (Return stars, s) ->
       getStarsByWalletAddress address s'
       = (Return (stars ++ [StarData address star])%list, s')) /\
   (forall other,
       other <> address ->
       fst (getStarsByWalletAddress other s')
       = fst (getStarsByWalletAddress other s))) /\
  (chain s = [] ->
   forall anyone, getStarsByWalletAddress anyone s' = (Return [], s')).
Proof.
  intros Hbuilt Hsub.
  destruct (submitStar_returns n _ _ _ _ _ _ s s' b Hbuilt Hsub)
    as (_ & _ & Hb & Hs' & Hbuilt').
  destruct (built_invariant n s Hbuilt) as (Hcons & _).
  destruct (built_invariant (S n) s' Hbuilt') as (Hcons' & _).
  assert (Hbody : body b = encode (StarData address star))
    by (rewrite Hb; apply next_block_body).
  split.
  - intros Hne Hcodec.
    assert (Htl : tl (chain s') = (tl (chain s) ++ [b])%list).
    { rewrite Hs'. cbn [chain]. destruct (chain s); [congruence | reflexivity]. }
    assert (Hstars : forall who,
               expected_stars who (chain s')
               = match decode_all (tl (chain s)) with
                 | Some payloads =>
                     Return (filter (owned_by who) payloads
                             ++ (if String.eqb address who
                                 then [StarData address star] else []))%list
                 | None => Throw DecodeError
                 end).
    { intros who. unfold expected_stars.
      rewrite Htl, decode_all_snoc, Hbody, Hcodec.
      destruct (decode_all (tl (chain s))) as [payloads |]; [| reflexivity].
      rewrite filter_app. cbn [filter]. now rewrite owned_by_eq. }
    split.
    + intros stars Hold.
      rewrite (getStars_eq address s Hcons) in Hold.
      rewrite (getStars_eq address s' Hcons'), Hstars, String.eqb_refl.
      unfold expected_stars in Hold.
      destruct (decode_all (tl (chain s))) as [payloads |];
        inversion Hold; reflexivity.
    + intros other Hother.
      rewrite (getStars_eq other s Hcons), (getStars_eq other s' Hcons'),
        Hstars.
      cbn [fst]. unfold expected_stars.
      destruct (String.eqb_spec address other) as [Heq | _];
        [congruence |].
      destruct (decode_all (tl (chain s))) as [payloads |]; [| reflexivity].
      now rewrite app_nil_r.
  - intros Hempty anyone.
    rewrite (getStars_eq anyone s' Hcons'), Hs'. cbn [chain].
    rewrite Hempty. reflexivity.
Qed.

(** ** What the validator lets through *)

(** X8: on an object whose cached height agrees with its chain, the
    validator returns the empty list exactly when every block above the
    first passes its self-check and carries the hash of the block below;
    [_addBlock] appends exactly then, and otherwise throws 'The chain is
    invalid' and leaves the object as it was. *)
Theorem append_refused_iff_defect (now : Z) (block : Block)
    (s : Blockchain) :
  consistent s ->
  (validateChain s = (Return [], s) <-> linked (chain s)) /\
  ((exists b s', _addBlock now block s = (Return b, s')) <->
   linked (chain s)) /\
  (~ linked (chain s) -> _addBlock now block s = (Throw ChainInvalid, s)).
Proof.
  intros Hcons.
  rewrite (validateChain_eq s Hcons), (addBlock_eq now block s Hcons).
  split; [| split].
  - split.
    + intros H. inversion H as [Herr]. now apply no_error_linked.
    + intros H. now rewrite (linked_no_error _ H).
  - split.
    + intros (b & s' & H). apply no_error_linked.
      destruct (expected_errors (chain s)); [reflexivity | discriminate].
    + intros H. rewrite (linked_no_error _ H). eexists. eexists. reflexivity.
  - intros Hnot.
    destruct (expected_errors (chain s)) eqn:Herr; [| reflexivity].
    destruct Hnot. now apply no_error_linked.
Qed.

Lemma expected_errors_first (g g' : Block) (rest : list Block) :
  hash g' = hash g ->
  expected_errors (g' :: rest) = expected_errors (g :: rest).
Proof.
  intros Hh. destruct rest as [| b rest']; [reflexivity |].
  change (expected_errors (g' :: b :: rest'))
    with (errors_of g' b ++ expected_errors (b :: rest'))%list.
  change (expected_errors (g :: b :: rest'))
    with (errors_of g b ++ expected_errors (b :: rest'))%list.
  unfold errors_of. now rewrite Hh.
Qed.

(** X9: the validator never looks into the first block: it reads its hash
    to check the link of the second block and nothing else.  So a first
    block whose body, height, time or previous hash was overwritten is
    reported by no error: the validator returns what it returned before,
    and on a chain built by appends that is the empty list. *)
Theorem first_block_is_never_checked (s : Blockchain) (g g' : Block)
    (rest : list Block) :
  consistent s ->
  chain s = g :: rest ->
  hash g' = hash g ->
  validateChain (mkBlockchain (g' :: rest) (chain_height s))
  = (fst (validateChain s), mkBlockchain (g' :: rest) (chain_height s)) /\
  (forall n,
      built n s ->
      validateChain (mkBlockchain (g' :: rest) (chain_height s))
      = (Return [], mkBlockchain (g' :: rest) (chain_height s))).
Proof.
  intros Hcons Hchain Hh.
  assert (Hcons' : consistent (mkBlockchain (g' :: rest) (chain_height s))).
  { unfold consistent in *. cbn [chain chain_height].
    rewrite Hcons, Hchain. reflexivity. }
  assert (Hsame :
            validateChain (mkBlockchain (g' :: rest) (chain_height s))
            = (fst (validateChain s),
               mkBlockchain (g' :: rest) (chain_height s))).
  { rewrite (validateChain_eq _ Hcons'), (validateChain_eq s Hcons), Hchain.
    cbn [chain fst]. now rewrite (expected_errors_first g g' rest Hh). }
  split; [exact Hsame |].
  intros n Hbuilt. rewrite Hsame.
  destruct (built_invariant n s Hbuilt) as (_ & _ & Hlinked & _).
  now rewrite (validateChain_eq s Hcons), (linked_no_error _ Hlinked).
Qed.

(** ** Challenges *)

Lemma split_not_empty (s : string) : JS.split ":" s <> [].
Proof.
  destruct s as [| c rest]; [discriminate |].
  cbn [JS.split]. destruct (Ascii.eqb c ":"); [discriminate |].
  destruct (JS.split ":" rest); discriminate.
Qed.

Lemma first_field (r y : string) :
  hd_error (JS.split ":" (r ++ String ":" y)) = hd_error (JS.split ":" r).
Proof.
  induction r as [| c r' IH]; [reflexivity |].
  cbn [String.append JS.split]. destruct (Ascii.eqb c ":"); [reflexivity |].
  pose proof (split_not_empty r') as H1.
  pose proof (split_not_empty (r' ++ String ":" y)) as H2.
  destruct (JS.split ":" r') as [| f fs]; [congruence |].
  destruct (JS.split ":" (r' ++ String ":" y)) as [| f' fs']; [congruence |].
  cbn in IH |- *. now inversion IH.
Qed.

Lemma second_field (x y : string) :
  has_colon x = true ->
  nth_error (JS.split ":" (x ++ String ":" y)) 1
  = nth_error (JS.split ":" x) 1.
Proof.
  induction x as [| c x' IH]; [discriminate |].
  cbn [has_colon String.append JS.split].
  destruct (Ascii.eqb c ":"); cbn [orb].
  - intros _. cbn [nth_error].
    pose proof (first_field x' y) as H.
    destruct (JS.split ":" x'), (JS.split ":" (x' ++ String ":" y));
      cbn in H |- *; congruence.
  - intros Hx. specialize (IH Hx).
    pose proof (split_not_empty x') as H1.
    pose proof (split_not_empty (x' ++ String ":" y)) as H2.
    destruct (JS.split ":" x') as [| f fs]; [congruence |].
    destruct (JS.split ":" (x' ++ String ":" y)) as [| f' fs'];
      [congruence |].
    exact IH.
Qed.

(** X10: the challenge of an address without a colon splits back into the
    address, the time of issue in seconds and the word [starRegistry]; the
    timestamp [submitStar] reads from it is the clock reading [submitStar]
    itself would take at the time of issue, that is, for a clock of at
    least one second, the milliseconds divided by 1000. *)
Theorem challenge_reads_back (address : string) (issued : Z) :
  has_colon address = false ->
  JS.split ":" (requestMessageOwnershipVerification address issued)
  = [address; seconds_string issued; "starRegistry"] /\
  messageTime (requestMessageOwnershipVerification address issued)
  = currentTime issued /\
  (1000 <= issued ->
   messageTime (requestMessageOwnershipVerification address issued)
   = JS.Num (issued / 1000)).
Proof.
  intros Hno.
  assert (Hsplit :
            JS.split ":" (requestMessageOwnershipVerification address issued)
            = [address; seconds_string issued; "starRegistry"]).
  { unfold requestMessageOwnershipVerification.
    change (":" ++ seconds_string issued ++ ":starRegistry")
      with (String ":" (seconds_string issued ++ String ":" "starRegistry")).
    rewrite (split_prefix _ _ Hno),
      (split_prefix _ _ (seconds_string_no_colon issued)).
    reflexivity. }
  split; [exact Hsplit |].
  assert (Htime :
            messageTime (requestMessageOwnershipVerification address issued)
            = currentTime issued)
    by (unfold messageTime; rewrite Hsplit; reflexivity).
  split; [exact Htime |].
  intros Hissued. rewrite Htime. now apply currentTime_seconds.
Qed.

(** X11: for a challenge issued by the class to an address without a
    colon, with both clocks in milliseconds and at least one second:
    [submitStar] answers 'Message timed out' exactly when the whole seconds
    of the two clocks differ by more than 300.  So a submission up to
    300000 ms after the issue, or before it, is never timed out, one from
    301000 ms on always is, and in between the outcome depends on how the
    two readings fall within their seconds. *)
Theorem challenge_window_on_the_clock (address signature : string)
    (star : Star) (issued now now' : Z) (s : Blockchain) :
  has_colon address = false ->
  1000 <= issued ->
  1000 <= now ->
  (fst (submitStar address
          (requestMessageOwnershipVerification address issued) signature
          star now now' s)
   = Throw MessageTimedOut <->
   300 < now / 1000 - issued / 1000) /\
  (now - issued <= 300000 ->
   fst (submitStar address
          (requestMessageOwnershipVerification address issued) signature
          star now now' s)
   <> Throw MessageTimedOut) /\
  (301000 <= now - issued ->
   fst (submitStar address
          (requestMessageOwnershipVerification address issued) signature
          star now now' s)
   = Throw MessageTimedOut).
Proof.
  intros Hno Hissued Hnow.
  assert (Hiff :
            fst (submitStar address
                   (requestMessageOwnershipVerification address issued)
                   signature star now now' s)
            = Throw MessageTimedOut <->
            300 < now / 1000 - issued / 1000).
  { rewrite submitStar_timed_out, gt_300,
      (challenge_elapsed address issued now Hno Hissued Hnow).
    split.
    - intros (d & Hd & Hlt). inversion Hd. lia.
    - intros Hlt. eexists. split; [reflexivity | exact Hlt]. }
  split; [exact Hiff |]. split.
  - intros Hearly Hout. apply Hiff in Hout.
    pose proof (Z.div_le_mono now (issued + 300 * 1000) 1000) as Hmono.
    rewrite Z.div_add in Hmono by lia. lia.
  - intros Hlate. apply Hiff.
    pose proof (Z.div_le_mono (issued + 301 * 1000) now 1000) as Hmono.
    rewrite Z.div_add in Hmono by lia. lia.
Qed.

(** X12: when the address has a colon in it, the second field of the
    challenge is a piece of the address: the timestamp [submitStar] reads
    is the one it would read from the address alone, whatever the time of
    issue; and when that piece is no number, the challenge never times
    out. *)
Theorem challenge_of_address_with_colon (address signature : string)
    (star : Star) (issued now now' : Z) (s : Blockchain) :
  has_colon address = true ->
  messageTime (requestMessageOwnershipVerification address issued)
  = messageTime address /\
  (messageTime address = JS.NaN ->
   fst (submitStar address
          (requestMessageOwnershipVerification address issued) signature
          star now now' s)
   <> Throw MessageTimedOut).
Proof.
  intros Hcolon.
  assert (Htime :
            messageTime (requestMessageOwnershipVerification address issued)
            = messageTime address).
  { unfold messageTime, requestMessageOwnershipVerification.
    change (":" ++ seconds_string issued ++ ":starRegistry")
      with (String ":" (seconds_string issued ++ ":starRegistry")).
    change (JS.index ?l 1) with (nth_error l 1).
    now rewrite (second_field address _ Hcolon). }
  split; [exact Htime |].
  intros Hnan. rewrite submitStar_timed_out.
  rewrite (nan_not_above_300 _ now); [discriminate |].
  now rewrite Htime.
Qed.

(** ** Calls in flight, refused ones among them *)

Lemma acceptable_valid (call : Submission) :
  acceptable call = true <-> valid_submission call.
Proof.
  unfold acceptable, valid_submission.
  destruct (JS.gt (elapsed (sub_message call) (sub_now call)) (JS.Num 300));
    destruct (verify (sub_message call) (sub_address call)
                (sub_signature call));
    cbn; split; intros H; try discriminate; try (destruct H; discriminate);
    auto.
Qed.

Lemma refused_start (call : Submission) (s : Blockchain) :
  acceptable call = false ->
  exists e, resume (Fresh call) s = (Throw e, s) /\ refusal e.
Proof.
  unfold acceptable, refusal. cbn [resume]. unfold start.
  destruct (JS.gt (elapsed (sub_message call) (sub_now call)) (JS.Num 300)).
  - intros _. exists MessageTimedOut. auto.
  - destruct (verify (sub_message call) (sub_address call)
                (sub_signature call)) as [| | msg]; cbn; intros H.
    + discriminate.
    + exists CouldntVerify. auto.
    + exists (LibraryError msg). split; [reflexivity |]. right. right.
      now exists msg.
Qed.

Lemma Forall2_nth {A B : Type} (R : A -> B -> Prop) (l1 : list A)
    (l2 : list B) (k : nat) (y : B) :
  Forall2 R l1 l2 ->
  nth_error l2 k = Some y ->
  exists x, nth_error l1 k = Some x /\ R x y.
Proof.
  intros H. revert k. induction H as [| a b l1 l2 Hab Hrest IH]; intros k Hk.
  - destruct k; discriminate.
  - destruct k as [| k']; cbn in Hk |- *.
    + inversion Hk; subst. now exists a.
    + now apply IH.
Qed.

Lemma Forall2_replace_nth {A B : Type} (R : A -> B -> Prop) (l1 : list A)
    (l2 : list B) (k : nat) (x : A) (y : B) :
  Forall2 R l1 l2 ->
  nth_error l1 k = Some x ->
  R x y ->
  Forall2 R l1 (replace_nth k y l2).
Proof.
  intros H. revert k. induction H as [| a b l1 l2 Hab Hrest IH]; intros k Hk Hxy.
  - destruct k; discriminate.
  - destruct k as [| k']; cbn in Hk |- *.
    + inversion Hk; subst. now constructor.
    + constructor; [exact Hab | now apply IH].
Qed.

Lemma replace_nth_returned (k : nat) (t t' : Task) (l : list Task) :
  nth_error l k = Some t ->
  is_finished t = false ->
  List.length (filter has_returned (replace_nth k t' l))
  = (List.length (filter has_returned l)
     + if has_returned t' then 1 else 0)%nat.
Proof.
  revert k. induction l as [| y rest IH]; intros k Hk Ht.
  - destruct k; discriminate.
  - destruct k as [| k']; cbn in Hk |- *.
    + inversion Hk; subst y.
      replace (has_returned t) with false
        by (destruct t; [reflexivity .. | discriminate]).
      destruct (has_returned t'); cbn [List.length]; lia.
    + destruct (has_returned y); cbn [List.length];
        rewrite (IH k' Hk Ht); lia.
Qed.

Lemma call_state_grows (s : Blockchain) (b : Block) (call : Submission)
    (t : Task) :
  call_state s call t ->
  call_state (mkBlockchain (chain s ++ [b]) (chain_height s + 1)) call t.
Proof.
  intros [H | [(Ha & Hrun & Hok) | [(Ha & b' & Ht & Hin) | H]]].
  - now left.
  - right. left. repeat split; auto. now apply task_ok_grows.
  - right. right. left. split; [exact Ha |]. exists b'.
    split; [exact Ht |]. apply in_or_app. now left.
  - right. right. now right.
Qed.

Lemma call_state_work (top : Z) (s : Blockchain) (calls : list Submission)
    (ts : list Task) :
  0 <= top ->
  chain_height s <= top ->
  Forall2 (call_state s) calls ts ->
  0 <= total_work top ts.
Proof.
  intros Htop Hh H. induction H as [| call t calls ts Hct Hrest IH];
    [cbn; lia |].
  cbn [total_work]. assert (0 <= work top t); [| lia].
  destruct Hct as [-> | [(_ & _ & Hok) | [(_ & b & -> & _) | (_ & e & -> & _)]]];
    cbn; try lia.
  destruct t; cbn in Hok |- *; lia.
Qed.

Lemma in_flight_any_height (s0 : Blockchain) (calls : list Submission)
    (steps : nat) (c : Config) :
  consistent s0 ->
  in_flight_any s0 calls steps c ->
  chain_height (shared c)
  <= chain_height s0 + Z.of_nat (List.length calls).
Proof.
  unfold consistent.
  intros H0 (Hcons & _ & (new & Hchain & _ & _ & Hlen) & Hrel & _).
  unfold consistent in Hcons.
  pose proof (filter_length_le has_returned (tasks c)) as Hle.
  pose proof (Forall2_length Hrel) as Hn.
  rewrite Hcons, Hchain, length_app, Hlen, H0. lia.
Qed.

Lemma step_in_flight_any (s0 : Blockchain) (calls : list Submission)
    (steps k : nat) (c c' : Config) :
  consistent s0 ->
  in_flight_any s0 calls steps c ->
  step k c = Some c' ->
  in_flight_any s0 calls (S steps) c'.
Proof.
  intros H0 Hinv Hstep.
  pose proof (in_flight_any_height s0 calls steps c H0 Hinv) as Htop.
  destruct Hinv
    as (Hcons & Hlinked & (new & Hchain & Hheights & Hsealed & Hlen)
        & Hrel & Hwork).
  unfold step in Hstep.
  destruct (nth_error (tasks c) k) as [t |] eqn:Hk; [| discriminate].
  destruct (is_finished t) eqn:Hrun; [discriminate |].
  destruct (Forall2_nth _ _ _ k t Hrel Hk) as (call & Hcall & Hstate).
  assert (Hcalls : (1 <= List.length calls)%nat).
  { assert (k < List.length calls)%nat
      by (apply nth_error_Some; congruence).
    lia. }
  assert (Hpos : 0 <= chain_height s0 + Z.of_nat (List.length calls))
    by (unfold consistent in H0; lia).
  assert (Hcases :
            (acceptable call = false /\ t = Fresh call) \/
            (acceptable call = true /\ task_ok (shared c) t)).
  { destruct Hstate as [-> | [(Ha & _ & Hok) | [(_ & b & -> & _)
                                              | (_ & e & -> & _)]]];
      try discriminate.
    - destruct (acceptable call) eqn:Ha; [right | left]; split; auto.
      now apply acceptable_valid.
    - now right. }
  destruct Hcases as [[Hbad ->] | [Hgood Hok]].
  - destruct (refused_start call (shared c) Hbad) as (e & Hres & Hrefusal).
    rewrite Hres in Hstep. inversion Hstep; subst c'; clear Hstep.
    unfold in_flight_any. cbn [shared tasks].
    split; [exact Hcons |]. split; [exact Hlinked |].
    split.
    { exists new. rewrite (replace_nth_returned k _ _ _ Hk Hrun).
      cbn [has_returned]. repeat split; auto. lia. }
    split.
    { apply (Forall2_replace_nth _ _ _ k call _ Hrel Hcall).
      right. right. right. split; [exact Hbad |]. now exists e. }
    rewrite (replace_nth_work _ k _ (Finished (Throw e)) _ Hk).
    cbn [work]. lia.
  - destruct (resume_ok (shared c) t
                (chain_height s0 + Z.of_nat (List.length calls))
                Hcons Hlinked Hok Hrun Htop Hpos)
      as [(t' & Hres & Hok' & Hrun' & Hless)
         | (errorLog & block & now' & -> & Hnew & Hres)];
      rewrite Hres in Hstep; inversion Hstep; subst c'; clear Hstep;
      unfold in_flight_any; cbn [shared tasks].
    + split; [exact Hcons |]. split; [exact Hlinked |].
      split.
      { exists new. rewrite (replace_nth_returned k t t' _ Hk Hrun).
        replace (has_returned t') with false
          by (destruct t'; [reflexivity .. | discriminate]).
        repeat split; auto. lia. }
      split.
      { apply (Forall2_replace_nth _ _ _ k call _ Hrel Hcall).
        right. left. auto. }
      rewrite (replace_nth_work _ k t t' _ Hk). lia.
    + assert (Hnone : hash block = None)
        by (destruct Hnew as [data ->]; reflexivity).
      set (nb := next_block now' (chain (shared c)) block).
      split; [now apply consistent_push |].
      split.
      { apply (linked_snoc _ _ block Hlinked). intros Hne. split.
        - now apply next_block_validate.
        - now apply next_block_previous. }
      split.
      { exists (new ++ [nb])%list.
        rewrite (replace_nth_returned k _ (Finished (Return nb)) _ Hk Hrun).
        cbn [has_returned]. split; [| split; [| split]].
        - now rewrite Hchain, <- app_assoc.
        - apply heights_from_snoc; [exact Hheights |].
          unfold nb. rewrite next_block_height, Hchain, length_app.
          unfold consistent in H0. lia.
        - apply Forall_app. split; [exact Hsealed |].
          constructor; [| constructor]. now apply next_block_hash.
        - rewrite length_app, Hlen. cbn [List.length]. lia. }
      split.
      { apply (Forall2_replace_nth _ _ _ k call).
        - eapply Forall2_impl; [| exact Hrel].
          intros a t0. apply call_state_grows.
        - exact Hcall.
        - right. right. left. split; [exact Hgood |]. exists nb.
          split; [reflexivity |]. cbn [chain]. apply in_or_app.
          right. now left. }
      rewrite (replace_nth_work _ k _ (Finished (Return nb)) _ Hk).
      cbn [work]. lia.
Qed.

Lemma run_in_flight_any (s0 : Blockchain) (calls : list Submission)
    (schedule : list nat) (steps : nat) (c c' : Config) :
  consistent s0 ->
  in_flight_any s0 calls steps c ->
  run schedule c = Some c' ->
  in_flight_any s0 calls (steps + List.length schedule) c'.
Proof.
  intros H0. revert steps c.
  induction schedule as [| k rest IH]; intros steps c Hinv Hrun.
  - cbn in Hrun. inversion Hrun; subst. now rewrite Nat.add_0_r.
  - cbn [run] in Hrun. destruct (step k c) as [c1 |] eqn:Hstep;
      [| discriminate].
    cbn [List.length]. rewrite Nat.add_succ_r, <- Nat.add_succ_l.
    apply (IH (S steps) c1); [| exact Hrun].
    eapply step_in_flight_any; eassumption.
Qed.

Lemma fresh_in_flight_any (s0 : Blockchain) (calls : list Submission) :
  consistent s0 ->
  linked (chain s0) ->
  in_flight_any s0 calls 0 (mkConfig s0 (map Fresh calls)).
Proof.
  intros H0 Hlinked. unfold in_flight_any. cbn [shared tasks].
  split; [exact H0 |]. split; [exact Hlinked |].
  split.
  { exists []. rewrite app_nil_r. repeat split; try constructor.
    induction calls as [| call rest IH]; [reflexivity | exact IH]. }
  split.
  { induction calls as [| call rest IH]; constructor; [now left | exact IH]. }
  rewrite fresh_work. lia.
Qed.

Lemma returned_are_acceptable (s : Blockchain) (calls : list Submission)
    (ts : list Task) :
  Forall2 (call_state s) calls ts ->
  forallb is_finished ts = true ->
  List.length (filter has_returned ts)
  = List.length (filter acceptable calls) /\
  Forall2
    (fun call t =>
       if acceptable call
       then exists b, t = Finished (Return b) /\ In b (chain s)
       else exists e, t = Finished (Throw e) /\ refusal e)
    calls ts.
Proof.
  intros H. induction H as [| call t calls ts Hct Hrest IH]; intros Hall.
  - split; [reflexivity | constructor].
  - cbn [forallb] in Hall. apply andb_prop in Hall.
    destruct Hall as [Ht Hall]. destruct (IH Hall) as [Hlen Hrel].
    destruct Hct as [-> | [(_ & Hrun & _) | [(Ha & b & -> & Hin)
                                            | (Ha & e & -> & Hre)]]].
    + discriminate.
    + congruence.
    + cbn [filter has_returned]. rewrite Ha. cbn [List.length].
      split; [now rewrite Hlen |].
      constructor; [| exact Hrel]. rewrite Ha. now exists b.
    + cbn [filter has_returned]. rewrite Ha.
      split; [exact Hlen |].
      constructor; [| exact Hrel]. rewrite Ha. now exists e.
Qed.

(** X13: submissions of any kind fired together on a consistent chain
    without defect, under every order in which their segments are resumed:
    the run ends within a fixed number of steps; every call that is too old
    or whose signature does not verify ends with that refusal and every
    other call returns a block of the chain; the chain ends as the initial
    one followed by exactly one new sealed block per call that was let
    through, at heights following on from the initial one; and the
    validator finds no error.  A refused call in flight disturbs no
    other. *)
Theorem calls_in_flight_some_refused (s0 : Blockchain)
    (calls : list Submission) (schedule : list nat) (c : Config) :
  consistent s0 ->
  linked (chain s0) ->
  run schedule (mkConfig s0 (map Fresh calls)) = Some c ->
  Z.of_nat (List.length schedule)
  <= Z.of_nat (List.length calls)
     * (chain_height s0 + Z.of_nat (List.length calls) + 2) /\
  (all_finished c = false -> exists k c', step k c = Some c') /\
  (all_finished c = true ->
   exists new,
     chain (shared c) = (chain s0 ++ new)%list /\
     List.length new = List.length (filter acceptable calls) /\
     heights_from (chain_height s0 + 1) new /\
     Forall sealed new /\
     chain_height (shared c)
     = chain_height s0 + Z.of_nat (List.length (filter acceptable calls)) /\
     validateChain (shared c) = (Return [], shared c) /\
     Forall2
       (fun call t =>
          if acceptable call
          then exists b, t = Finished (Return b) /\ In b (chain (shared c))
          else exists e, t = Finished (Throw e) /\ refusal e)
       calls (tasks c)).
Proof.
  intros H0 Hlinked0 Hrun.
  pose proof (run_in_flight_any s0 calls schedule 0 _ c H0
                (fresh_in_flight_any s0 calls H0 Hlinked0) Hrun) as Hinv.
  pose proof (in_flight_any_height s0 calls _ c H0 Hinv) as Htop.
  destruct Hinv
    as (Hcons & Hlinked & (new & Hchain & Hheights & Hsealed & Hlen)
        & Hrel & Hwork).
  split; [| split].
  - destruct calls as [| call rest].
    + inversion Hrel as [Hc Ht |]. rewrite <- Ht in Hwork.
      cbn in Hwork |- *. lia.
    + assert (0 <= total_work
                     (chain_height s0
                      + Z.of_nat (List.length (call :: rest)))
                     (tasks c)).
      { apply (call_state_work _ (shared c) (call :: rest)); auto.
        unfold consistent in H0. cbn [List.length]. lia. }
      cbn [Nat.add] in Hwork. lia.
  - apply unfinished_steps.
  - intros Hall. unfold all_finished in Hall.
    destruct (returned_are_acceptable _ _ _ Hrel Hall) as [Hcount Hends].
    rewrite Hcount in Hlen.
    exists new. split; [exact Hchain |]. split; [exact Hlen |].
    split; [exact Hheights |]. split; [exact Hsealed |].
    split.
    { unfold consistent in Hcons, H0.
      rewrite Hcons, Hchain, length_app, Hlen, H0. lia. }
    split; [| exact Hends].
    rewrite (validateChain_eq _ Hcons).
    now rewrite (linked_no_error _ Hlinked).
Qed.

(** ** Initialization called again before it is over *)

(** An initialization that runs with nothing else in flight does what
    [initializeChain] does. *)
Lemma init_alone_is_initializeChain (now : Z) (s : Blockchain) :
  init_alone 2 (InitFresh now) s = Some (initializeChain now s).
Proof.
  destruct s as [c h]. cbn [init_alone resume_init].
  unfold initializeChain, bind, this_height. cbn [chain_height].
  destruct (Z.eqb_spec h (-1)) as [-> | Hne]; [| reflexivity].
  reflexivity.
Qed.

(** X14: [initializeChain] called a second time before the first call has
    appended (the constructor does not wait for the call it makes) finds
    the height still at -1 and appends too: the chain gets two blocks with
    the genesis payload, at heights 0 and 1, the second linked to the first,
    and the validator finds nothing wrong with it.  Called after the first
    call is over, the second call adds nothing. *)
Theorem initialization_in_flight_twice (now1 now2 : Z) :
  let genesis := new_Block (GenesisData "Genesis Block") in
  let g0 := next_block now1 [] genesis in
  let g1 := next_block now2 [g0] genesis in
  run_init [0; 1; 0; 1]%nat (empty_chain, [InitFresh now1; InitFresh now2])
  = Some (mkBlockchain [g0; g1] 1,
          [InitDone (Return tt); InitDone (Return tt)]) /\
  body g0 = encode (GenesisData "Genesis Block") /\
  body g1 = encode (GenesisData "Genesis Block") /\
  height g0 = 0 /\
  height g1 = 1 /\
  previousBlockHash g1 = hash g0 /\
  validateChain (mkBlockchain [g0; g1] 1)
  = (Return [], mkBlockchain [g0; g1] 1) /\
  run_init [0; 0; 1]%nat (empty_chain, [InitFresh now1; InitFresh now2])
  = Some (mkBlockchain [g0] 0,
          [InitDone (Return tt); InitDone (Return tt)]).
Proof.
  intros genesis g0 g1.
  split; [reflexivity |]. split; [reflexivity |]. split; [reflexivity |].
  split; [reflexivity |]. split; [reflexivity |]. split; [reflexivity |].
  split; [| reflexivity].
  rewrite (validateChain_eq (mkBlockchain [g0; g1] 1)) by reflexivity.
  rewrite linked_no_error; [reflexivity |].
  cbn [chain linked]. split; [| split; [reflexivity | exact I]].
  now apply next_block_validate.
Qed.

(** ** A challenge used again *)

Lemma submitStar_accepts (n : nat) (address message signature : string)
    (star : Star) (now now' : Z) (s : Blockchain) :
  built n s ->
  JS.gt (elapsed message now) (JS.Num 300) = false ->
  verify message address signature = Verified ->
  submitStar address message signature star now now' s
  = (Return (next_block now' (chain s) (new_Block (StarData address star))),
     mkBlockchain
       (chain s ++ [next_block now' (chain s)
                      (new_Block (StarData address star))])
       (chain_height s + 1)).
Proof.
  intros Hbuilt Hfresh Hverified.
  destruct (built_invariant n s Hbuilt) as (Hcons & _ & Hlinked & _).
  now rewrite submitStar_eq, Hfresh, Hverified, (addBlock_eq _ _ s Hcons),
    (linked_no_error _ Hlinked).
Qed.

(** X15: the class keeps no record of the challenges it has issued or
    seen: a message and its signature that were accepted once are accepted
    again, with another star, for as long as the message is not older than
    300 seconds, and each call appends its own block. *)
Theorem challenge_can_be_used_again (n : nat)
    (address message signature : string) (star1 star2 : Star)
    (now1 now1' now2 now2' : Z) (s : Blockchain) :
  built n s ->
  verify message address signature = Verified ->
  JS.gt (elapsed message now1) (JS.Num 300) = false ->
  JS.gt (elapsed message now2) (JS.Num 300) = false ->
  exists b1 b2 s1,
    submitStar address message signature star1 now1 now1' s
    = (Return b1, s1) /\
    submitStar address message signature star2 now2 now2' s1
    = (Return b2,
       mkBlockchain (chain s ++ [b1; b2]) (chain_height s + 2)) /\
    body b1 = encode (StarData address star1) /\
    body b2 = encode (StarData address star2) /\
    height b2 = height b1 + 1.
Proof.
  intros Hbuilt Hverified Hfresh1 Hfresh2.
  pose proof (submitStar_accepts n address message signature star1 now1 now1'
                s Hbuilt Hfresh1 Hverified) as H1.
  set (b1 := next_block now1' (chain s) (new_Block (StarData address star1)))
    in *.
  set (s1 := mkBlockchain (chain s ++ [b1]) (chain_height s + 1)) in *.
  assert (Hbuilt1 : built (S n) s1).
  { apply (built_append n s (StarData address star1) now1' b1 s1 Hbuilt).
    rewrite submitStar_eq, Hfresh1, Hverified in H1. exact H1. }
  pose proof (submitStar_accepts (S n) address message signature star2 now2
                now2' s1 Hbuilt1 Hfresh2 Hverified) as H2.
  set (b2 := next_block now2' (chain s1) (new_Block (StarData address star2)))
    in *.
  exists b1, b2, s1. split; [exact H1 |]. split.
  - rewrite H2. unfold s1. cbn [chain chain_height].
    rewrite <- app_assoc. cbn [app]. f_equal. f_equal. lia.
  - split; [apply next_block_body |]. split; [apply next_block_body |].
    unfold b2, b1. rewrite !next_block_height. unfold s1. cbn [chain].
    rewrite length_app. cbn [List.length]. lia.
Qed.

End Lookups.

(** * The rest of the class on the concrete instance *)

Module LookupFacts.

Import Demo.

Lemma first_submission :
  submitStar (E := externals) "alice" (challenge "alice")
    (sign "alice" (challenge "alice")) "star one" (t0 + 10000) (t0 + 10000)
    genesis_chain
  = (Return first_star, star_chain).
Proof. vm_compute. reflexivity. Qed.

(** X3 at height 1 of the chain with one star. *)
Lemma getBlockByHeight_finds_the_block_witness :
  built (E := externals) 2 star_chain /\
  exists b,
    getBlockByHeight 1 star_chain = (Return (Some b), star_chain) /\
    nth_error (chain star_chain) 1 = Some b /\
    height b = 1.
Proof.
  split; [exact DemoFacts.star_chain_built |].
  exact (proj1 (getBlockByHeight_finds_the_block (E := externals) 2
                  star_chain 1 DemoFacts.star_chain_built)
           (conj (proj1 (Z.leb_le 0 1) eq_refl) (proj1 (Z.leb_le 1 1) eq_refl))).
Defined.

(** X4 on the first star of [alice]. *)
Lemma submitted_block_is_found_witness :
  built (E := externals) 1 genesis_chain /\
  getBlockByHeight (height first_star) star_chain
  = (Return (Some first_star), star_chain).
Proof.
  split; [exact DemoFacts.genesis_chain_built |].
  exact (proj1 (submitted_block_is_found (E := externals) 1 "alice"
                  (challenge "alice") (sign "alice" (challenge "alice"))
                  "star one" (t0 + 10000) (t0 + 10000) genesis_chain
                  star_chain first_star DemoFacts.genesis_chain_built
                  first_submission)).
Defined.

(** X5 on the same submission. *)
Lemma submitStar_success_witness :
  built (E := externals) 1 genesis_chain /\
  height first_star = chain_height genesis_chain + 1.
Proof.
  split; [exact DemoFacts.genesis_chain_built |].
  exact (proj1 (proj2
           (proj2 (submitStar_success (E := externals) 1 "alice"
                     (challenge "alice") (sign "alice" (challenge "alice"))
                     "star one" (t0 + 10000) (t0 + 10000) genesis_chain
                     DemoFacts.genesis_chain_built)
              first_star star_chain first_submission))).
Defined.

(** X6 on the chain with one star. *)
Lemma getBlockByHash_finds_by_hash_witness :
  built (E := externals) 2 star_chain /\
  getBlockByHash None star_chain = (Return None, star_chain).
Proof.
  split; [exact DemoFacts.star_chain_built |].
  exact (proj2 (proj2 (getBlockByHash_finds_by_hash (E := externals) 2
                         star_chain None DemoFacts.star_chain_built))).
Defined.

(** X7 on the same submission: [alice] had no star and has one. *)
Lemma submitted_star_is_listed_witness :
  built (E := externals) 1 genesis_chain /\
  getStarsByWalletAddress (E := externals) "alice" star_chain
  = (Return [StarData "alice" "star one"], star_chain).
Proof.
  split; [exact DemoFacts.genesis_chain_built |].
  refine (proj1 (proj1 (submitted_star_is_listed (E := externals) 1 "alice"
                          (challenge "alice")
                          (sign "alice" (challenge "alice")) "star one"
                          (t0 + 10000) (t0 + 10000) genesis_chain star_chain
                          first_star DemoFacts.genesis_chain_built
                          first_submission) _ eq_refl) [] eq_refl).
  discriminate.
Defined.

(** X8 on the damaged chain. *)
Lemma append_refused_iff_defect_witness :
  consistent tampered_chain /\
  (~ linked (E := externals) (chain tampered_chain) ->
   _addBlock (E := externals) t0 first_star tampered_chain
   = (Throw ChainInvalid, tampered_chain)).
Proof.
  split; [exact DemoFacts.tampered_chain_consistent |].
  exact (proj2 (proj2 (append_refused_iff_defect (E := externals) t0
                         first_star tampered_chain
                         DemoFacts.tampered_chain_consistent))).
Defined.

(** X9 on the chain with one star, the body of its genesis block
    rewritten. *)
Lemma first_block_is_never_checked_witness :
  consistent star_chain /\
  validateChain (E := externals)
    (mkBlockchain
       [mkBlock (hash genesis_block) 7 "Smallory|mine" "0" (Some "0000");
        first_star] 1)
  = (Return [],
     mkBlockchain
       [mkBlock (hash genesis_block) 7 "Smallory|mine" "0" (Some "0000");
        first_star] 1).
Proof.
  split; [exact DemoFacts.star_chain_consistent |].
  exact (proj2 (first_block_is_never_checked (E := externals) star_chain
                  genesis_block
                  (mkBlock (hash genesis_block) 7 "Smallory|mine" "0"
                     (Some "0000"))
                  [first_star] DemoFacts.star_chain_consistent eq_refl
                  eq_refl)
           2%nat DemoFacts.star_chain_built).
Defined.

(** X10 on the challenge of [alice]. *)
Lemma challenge_reads_back_witness :
  has_colon "alice" = false /\
  JS.split ":" (requestMessageOwnershipVerification "alice" t0)
  = ["alice"; "1700000000"; "starRegistry"] /\
  messageTime (requestMessageOwnershipVerification "alice" t0)
  = JS.Num 1700000000.
Proof.
  split; [reflexivity |].
  split.
  - exact (proj1 (challenge_reads_back "alice" t0 eq_refl)).
  - exact (proj2 (proj2 (challenge_reads_back "alice" t0 eq_refl))
             (proj1 (Z.leb_le 1000 t0) eq_refl)).
Defined.

(** X11 exactly 300 seconds after the issue. *)
Lemma challenge_window_on_the_clock_witness :
  has_colon "alice" = false /\
  fst (submitStar (E := externals) "alice"
         (requestMessageOwnershipVerification "alice" t0)
         (sign "alice" (challenge "alice")) "star one" (t0 + 300000)
         (t0 + 300000) genesis_chain)
  <> Throw MessageTimedOut.
Proof.
  split; [reflexivity |].
  exact (proj1 (proj2
           (challenge_window_on_the_clock (E := externals) "alice"
              (sign "alice" (challenge "alice")) "star one" t0
              (t0 + 300000) (t0 + 300000) genesis_chain eq_refl
              (proj1 (Z.leb_le 1000 t0) eq_refl)
              (proj1 (Z.leb_le 1000 (t0 + 300000)) eq_refl)))
           (proj1 (Z.leb_le (t0 + 300000 - t0) 300000) eq_refl)).
Defined.

(** Between 300000 and 301000 ms the readings decide: 300.999 s after a
    challenge issued on the second pass, 300.001 s after one issued at the
    last millisecond of a second do not. *)
Example between_300_and_301_seconds :
  fst (submitStar (E := externals) "alice"
         (requestMessageOwnershipVerification "alice" t0)
         (sign "alice" (requestMessageOwnershipVerification "alice" t0))
         "star one" (t0 + 300999) (t0 + 300999) genesis_chain)
  <> Throw MessageTimedOut /\
  fst (submitStar (E := externals) "alice"
         (requestMessageOwnershipVerification "alice" (t0 + 999))
         (sign "alice" (requestMessageOwnershipVerification "alice" (t0 + 999)))
         "star one" (t0 + 999 + 300001) (t0 + 999 + 300001) genesis_chain)
  = Throw MessageTimedOut.
Proof. split; vm_compute; [discriminate | reflexivity]. Qed.

(** X12 on an address with a colon: issued long ago, never timed out. *)
Lemma challenge_of_address_with_colon_witness :
  has_colon "al:ice" = true /\
  messageTime (requestMessageOwnershipVerification "al:ice" t0) = JS.NaN /\
  fst (submitStar (E := externals) "al:ice"
         (requestMessageOwnershipVerification "al:ice" t0)
         "" "star one" (t0 + 999999000) (t0 + 999999000) genesis_chain)
  <> Throw MessageTimedOut.
Proof.
  split; [reflexivity |]. split.
  - exact (proj1 (challenge_of_address_with_colon (E := externals) "al:ice"
                    "" "star one" t0 (t0 + 999999000) (t0 + 999999000)
                    genesis_chain eq_refl)).
  - exact (proj2 (challenge_of_address_with_colon (E := externals) "al:ice"
                    "" "star one" t0 (t0 + 999999000) (t0 + 999999000)
                    genesis_chain eq_refl) eq_refl).
Defined.

Lemma mixed_runs :
  run mixed_order (mkConfig genesis_chain (map Fresh four_calls))
  = Some after_mixed.
Proof. vm_compute. reflexivity. Qed.

(** X13 on two good submissions, a forged one and a late one: the chain
    gets two blocks, the second good call landing first. *)
Lemma calls_in_flight_some_refused_witness :
  run mixed_order (mkConfig genesis_chain (map Fresh four_calls))
  = Some after_mixed /\
  exists new,
    chain (shared after_mixed) = (chain genesis_chain ++ new)%list /\
    List.length new = 2%nat /\
    heights_from 1 new /\
    Forall (sealed (E := externals)) new /\
    chain_height (shared after_mixed) = 2 /\
    validateChain (E := externals) (shared after_mixed)
    = (Return [], shared after_mixed) /\
    Forall2
      (fun call t =>
         if acceptable call
         then exists b, t = Finished (Return b) /\
                        In b (chain (shared after_mixed))
         else exists e, t = Finished (Throw e) /\ refusal e)
      four_calls (tasks after_mixed).
Proof.
  split; [exact mixed_runs |].
  exact (proj2 (proj2
           (calls_in_flight_some_refused (E := externals) genesis_chain
              four_calls mixed_order after_mixed eq_refl
              DemoFacts.genesis_chain_linked mixed_runs))
           eq_refl).
Defined.

Example mixed_outcomes :
  map (fun t => match t with
                | Finished (Return b) => Some (body b, height b)
                | _ => None
                end) (tasks after_mixed)
  = [Some ("Salice|star one", 2); None; Some ("Salice|star two", 1); None] /\
  map (fun t => match t with
                | Finished (Throw e) => Some e
                | _ => None
                end) (tasks after_mixed)
  = [None; Some CouldntVerify; None; Some MessageTimedOut].
Proof. split; vm_compute; reflexivity. Qed.

(** X15 on the challenge of [alice], used at 10 and at 200 seconds. *)
Lemma challenge_can_be_used_again_witness :
  built (E := externals) 1 genesis_chain /\
  exists b1 b2 s1,
    submitStar (E := externals) "alice" (challenge "alice")
      (sign "alice" (challenge "alice")) "star one" (t0 + 10000)
      (t0 + 10000) genesis_chain = (Return b1, s1) /\
    submitStar (E := externals) "alice" (challenge "alice")
      (sign "alice" (challenge "alice")) "star two" (t0 + 200000)
      (t0 + 200000) s1
    = (Return b2, mkBlockchain (chain genesis_chain ++ [b1; b2]) 2) /\
    body b1 = "Salice|star one" /\
    body b2 = "Salice|star two" /\
    height b2 = height b1 + 1.
Proof.
  split; [exact DemoFacts.genesis_chain_built |].
  exact (challenge_can_be_used_again (E := externals) 1 "alice"
           (challenge "alice") (sign "alice" (challenge "alice"))
           "star one" "star two" (t0 + 10000) (t0 + 10000) (t0 + 200000)
           (t0 + 200000) genesis_chain DemoFacts.genesis_chain_built
           eq_refl eq_refl eq_refl).
Defined.

End LookupFacts.
